(** * IntlRelativeFormat: a shallow embedding of [src/core.js]

    The development follows the source file top to bottom: JavaScript
    values and the string helpers the code relies on, the process-wide
    registries ([__availableLocales__], [__localeData__], [defaultLocale],
    [thresholds]), the instance record, and then every method of
    [RelativeFormat.prototype].  Objects used as dictionaries are finite
    maps; the two collaborators the file imports ([./diff] and
    [intl-messageformat]) and the wall clock are section variables. *)

From stdpp Require Import base option list strings gmap.
From Stdlib Require Import ZArith Ascii String DecimalString Lia.

Local Open Scope Z_scope.
Local Open Scope string_scope.

(** ** JavaScript values *)

(** The primitive values an option or an argument can hold.  Numbers are
    the integers, with [JNaN] apart. *)
Inductive jsval : Type :=
  | JUndefined
  | JNull
  | JBool (b : bool)
  | JNum (n : Z)
  | JNaN
  | JStr (s : string).

#[global] Instance jsval_eq_dec : EqDecision jsval.
Proof. solve_decision. Defined.

(** [ToBoolean]. *)
Definition truthy (v : jsval) : bool :=
  match v with
  | JUndefined | JNull | JNaN => false
  | JBool b => b
  | JNum n => negb (n =? 0)%Z
  | JStr s => negb (String.eqb s EmptyString)
  end.

(** [ToString] on primitives. *)
Definition ToString (v : jsval) : string :=
  match v with
  | JUndefined => "undefined"
  | JNull => "null"
  | JBool true => "true"
  | JBool false => "false"
  | JNum n => NilZero.string_of_int (Z.to_int n)
  | JNaN => "NaN"
  | JStr s => s
  end.

(** [a || b] *)
Definition js_or (a b : jsval) : jsval := if truthy a then a else b.

(** ** Strings *)

Module Str.

Definition is_lower (c : ascii) : bool :=
  let n := nat_of_ascii c in (97 <=? n)%nat && (n <=? 122)%nat.

Definition is_upper (c : ascii) : bool :=
  let n := nat_of_ascii c in (65 <=? n)%nat && (n <=? 90)%nat.

Definition lower_char (c : ascii) : ascii :=
  if is_upper c then ascii_of_nat (nat_of_ascii c + 32) else c.

(** [s.toLowerCase()], on ASCII tags. *)
Fixpoint toLowerCase (s : string) : string :=
  match s with
  | EmptyString => EmptyString
  | String c r => String (lower_char c) (toLowerCase r)
  end.

(** [s.split(sep)] for a one-character separator; never empty. *)
Fixpoint split (sep : ascii) (s : string) : list string :=
  match s with
  | EmptyString => [EmptyString]
  | String c r =>
      if Ascii.eqb c sep then EmptyString :: split sep r
      else match split sep r with
           | [] => [String c EmptyString]
           | h :: t => String c h :: t
           end
  end.

(** [a[0]] of a list of strings; [split] never returns the empty list. *)
Definition first (l : list string) : string :=
  match l with [] => EmptyString | h :: _ => h end.

(** [l.join(sep)] *)
Fixpoint join (sep : string) (l : list string) : string :=
  match l with
  | [] => EmptyString
  | [x] => x
  | x :: r => x ++ sep ++ join sep r
  end.

(** [/s$/.test(s)]: the last character is an [s]. *)
Fixpoint ends_with_s (s : string) : bool :=
  match s with
  | EmptyString => false
  | String c EmptyString => Ascii.eqb c "s"%char
  | String _ r => ends_with_s r
  end.

(** [s.substring(0, s.length - 1)] *)
Definition chop (s : string) : string :=
  String.substring 0 (String.length s - 1) s.

(** [s.replace(pat, by)] with a string pattern: the first occurrence
    only. *)
Fixpoint replace (pat by_ s : string) : string :=
  if String.prefix pat s
  then by_ ++ String.substring (String.length pat) (String.length s) s
  else match s with
       | EmptyString => EmptyString
       | String c r => String c (replace pat by_ r)
       end.

(** [/[a-z]{2,3}/.test(s)].  The pattern carries no anchor, so it is
    searched for at every position; a match at a position needs two
    letters there and takes a third one when it is there. *)
Definition match_az_2_3_at (s : string) : bool :=
  match s with
  | String a (String b _) => is_lower a && is_lower b
  | _ => false
  end.

Fixpoint test_az_2_3 (s : string) : bool :=
  match s with
  | EmptyString => false
  | String _ r => match_az_2_3_at s || test_az_2_3 r
  end.

(** The pattern the spec words: the whole string is 2 to 3 letters. *)
Definition is_2_3_letters (s : string) : bool :=
  let n := String.length s in
  (2 <=? n)%nat && (n <=? 3)%nat
  && forallb is_lower (list_ascii_of_string s).

Definition dquote : string := String (ascii_of_nat 34) EmptyString.

End Str.

(** ** Units and unit selection *)

Definition PRIORITY : list string :=
  ["second"; "minute"; "hour"; "day"; "month"; "year"].

(** [PRIORITY.indexOf(v) >= 0]: strict equality, so only a string can be
    found. *)
Definition in_PRIORITY (v : jsval) : bool :=
  match v with
  | JStr s => bool_decide (s ∈ PRIORITY)
  | _ => false
  end.

(** [Math.abs(diffReport[units]) < RelativeFormat.thresholds[units]].  A
    missing entry reads as [undefined], the comparison is then false. *)
Definition below_threshold (diffReport thresholds : gmap string Z)
    (units : string) : bool :=
  match diffReport !! units, thresholds !! units with
  | Some d, Some t => (Z.abs d <? t)%Z
  | _, _ => false
  end.

(** The [for] loop of [_selectUnits] from position [i] on: [units] is the
    loop variable as the previous iteration left it. *)
Fixpoint selectUnits_loop (diffReport thresholds : gmap string Z)
    (rest : list string) (units : jsval) : jsval :=
  match rest with
  | [] => units
  | u :: rest' =>
      if below_threshold diffReport thresholds u then JStr u
      else selectUnits_loop diffReport thresholds rest' (JStr u)
  end.

Definition _selectUnits (diffReport thresholds : gmap string Z) : jsval :=
  selectUnits_loop diffReport thresholds PRIORITY JUndefined.

(** The moment.js defaults of [RelativeFormat.thresholds]. *)
Definition default_thresholds : gmap string Z :=
  <["second" := 45]> (<["minute" := 45]> (<["hour" := 22]>
    (<["day" := 26]> (<["month" := 11]> ∅)))).

(** ** Errors *)

(** The five failures the spec names, the [TypeError] the engine raises by
    itself on a property access through [undefined], and a failure inside
    a collaborator. *)
Inductive error_class : Type :=
  | InvalidLocaleData
  | MalformedLocaleTag
  | UnsupportedLocale
  | InvalidUnit
  | InvalidDate
  | NativeTypeError
  | CollaboratorError.

Record error : Type := mkError { class : error_class; message : string }.

#[global] Instance error_class_eq_dec : EqDecision error_class.
Proof. solve_decision. Defined.

#[global] Instance error_eq_dec : EqDecision error.
Proof. solve_decision. Defined.

Inductive result (A : Type) : Type :=
  | Return (a : A)
  | Throw (e : error).

Arguments Return {A} a.
Arguments Throw {A} e.

#[global] Instance result_ret : MRet result := @Return.
#[global] Instance result_bind : MBind result := fun A B f c =>
  match c with
  | Return a => f a
  | Throw e => Throw e
  end.

(** One definition per [throw] of the source, with the text it builds. *)
Module Err.

Definition no_locale : error :=
  mkError InvalidLocaleData
    ("Locale data provided to IntlRelativeFormat does not contain a " ++
     "`locale` property").

Definition no_fields : error :=
  mkError InvalidLocaleData
    ("Locale data provided to IntlRelativeFormat does not contain a " ++
     "`fields` property").

Definition invalid_date : error :=
  mkError InvalidDate
    ("A Date must be provided to a IntlRelativeFormat instance's " ++
     "`format()` function").

Definition did_you_mean (units suggestion : string) : error :=
  mkError InvalidUnit
    (Str.dquote ++ units ++ Str.dquote ++
     " is not a valid IntlRelativeFormat `units` " ++
     "value, did you mean: " ++ suggestion).

Definition must_be_one_of (units : string) : error :=
  mkError InvalidUnit
    (Str.dquote ++ units ++ Str.dquote ++
     " is not a valid IntlRelativeFormat `units` " ++
     "value, it must be one of: " ++ Str.join ", " PRIORITY).

Definition not_structurally_valid (locale : string) : error :=
  mkError MalformedLocaleTag
    ("Language tag provided to IntlRelativeFormat is not " ++
     "structrually valid: " ++ locale).

Definition no_locale_data_for (locales : list string) : error :=
  mkError UnsupportedLocale
    ("No locale data has been added to IntlRelativeFormat for: " ++
     Str.join ", " locales).

(** Reading a property of [undefined] or [null], or calling what is not
    a function. *)
Definition type_error : error :=
  mkError NativeTypeError "TypeError".

Definition collaborator : error :=
  mkError CollaboratorError "intl-messageformat".

End Err.

(** ** Locale data and the process-wide registries *)

(** [relativeTime.future] and [relativeTime.past]: plural category to
    phrase template, in the order [for ... in] visits them. *)
Record RelativeTime : Type := mkRelativeTime {
  future : list (string * string);
  past : list (string * string)
}.

(** A field descriptor; [relative] maps an exact offset to a phrase. *)
Record Field : Type := mkField {
  relative : option (gmap Z string);
  relativeTime : option RelativeTime
}.

(** What is handed to [__addLocaleData]; an absent [locale] is the empty
    string, an absent [fields] is [None]. *)
Record LocaleData : Type := mkLocaleData {
  locale : string;
  fields : option (gmap string Field)
}.

(** The [locales] argument and [defaultLocale]: a primitive or an array
    of tags. *)
Inductive locales_arg : Type :=
  | LPrim (v : jsval)
  | LArray (l : list string).

Record Global : Type := mkGlobal {
  __availableLocales__ : list string;
  __localeData__ : gmap string LocaleData;
  defaultLocale : locales_arg;
  thresholds : gmap string Z
}.

Definition initial_Global : Global :=
  {| __availableLocales__ := [];
     __localeData__ := ∅;
     defaultLocale := LPrim JUndefined;
     thresholds := default_thresholds |}.

(** [RelativeFormat.__addLocaleData(data)]; the call that forwards the
    data to the message engine leaves this file's state alone. *)
Definition __addLocaleData (data : option LocaleData) (G : Global)
    : result Global :=
  match data with
  | None => Throw Err.no_locale
  | Some d =>
      if String.eqb (locale d) EmptyString then Throw Err.no_locale
      else match fields d with
           | None => Throw Err.no_fields
           | Some _ =>
               let locale :=
                 Str.first (Str.split "-" (Str.toLowerCase (locale d))) in
               Return {| __availableLocales__ :=
                           __availableLocales__ G ++ [locale];
                         __localeData__ := <[locale := d]> (__localeData__ G);
                         defaultLocale := defaultLocale G;
                         thresholds := thresholds G |}
           end
  end.

(** ** Locale resolution *)

Definition locale_key (tag : string) : string :=
  Str.toLowerCase (Str.first (Str.split "-" tag)).

(** The [for] loop of [_resolveLocale] over the candidates still to scan;
    [locales] is the whole array, for the final message. *)
Fixpoint resolveLocale_loop (availableLocales locales rest : list string)
    : result string :=
  match rest with
  | [] => Throw (Err.no_locale_data_for locales)
  | tag :: rest' =>
      let locale := locale_key tag in
      if negb (Str.test_az_2_3 locale)
      then Throw (Err.not_structurally_valid locale)
      else if bool_decide (locale ∈ availableLocales) then Return locale
      else resolveLocale_loop availableLocales locales rest'
  end.

Definition locales_truthy (locales : locales_arg) : bool :=
  match locales with
  | LPrim v => truthy v
  | LArray _ => true
  end.

Definition _resolveLocale (G : Global) (locales : locales_arg)
    : result string :=
  let locales :=
    if negb (locales_truthy locales) then defaultLocale G else locales in
  match locales with
  | LPrim (JStr s) =>
      resolveLocale_loop (__availableLocales__ G) [s] [s]
  | LPrim _ => Throw Err.type_error
  | LArray l => resolveLocale_loop (__availableLocales__ G) l l
  end.

(** ** Validation of the [units] option *)

(** [units.substring(0, units.length - 1)]: only a string has the
    method. *)
Definition substring_to_last (units : jsval) : result jsval :=
  match units with
  | JStr s => Return (JStr (Str.chop s))
  | _ => Throw Err.type_error
  end.

Definition _isValidUnits (units : jsval) : result bool :=
  if in_PRIORITY units then Return true
  else
    suggestion ←
      (if Str.ends_with_s (ToString units) then substring_to_last units
       else Return (JBool false));
    if truthy suggestion && in_PRIORITY suggestion
    then Throw (Err.did_you_mean (ToString units) (ToString suggestion))
    else Throw (Err.must_be_one_of (ToString units)).

(** ** Dates *)

(** The argument of [format]: a primitive, or a [Date] object with its
    time value ([None] is the time value [NaN]). *)
Inductive date_arg : Type :=
  | DPrim (v : jsval)
  | DDate (t : option Z).

Definition TimeClip (t : Z) : option Z :=
  if (Z.abs t <=? 8640000000000000)%Z then Some t else None.

(** ** Instances and their methods *)

Section RelativeFormat.

(** [intl-messageformat]: the compiled message, its constructor and its
    [format] method; either may throw ([None]). *)
Variable CompiledMessage : Type.
Variable compile : string -> string -> option CompiledMessage.
Variable evaluate : CompiledMessage -> option Z -> string -> option string.

(** [./diff]: from two time values to a diff report. *)
Variable diff : Z -> Z -> gmap string Z.

(** [Date.parse], for a string argument. *)
Variable Date_parse : string -> option Z.

(** The time value of [new Date(date)]; [None] is an invalid date. *)
Definition new_Date (date : date_arg) : option Z :=
  match date with
  | DDate t => t
  | DPrim (JStr s) => Date_parse s
  | DPrim JUndefined | DPrim JNaN => None
  | DPrim JNull => Some 0
  | DPrim (JBool b) => Some (if b then 1 else 0)
  | DPrim (JNum n) => TimeClip n
  end.

Record Instance : Type := mkInstance {
  _locale : string;
  _messages : gmap string CompiledMessage;
  _units : jsval
}.

(** The calls made into the message engine, latest first. *)
Inductive event : Type :=
  | EvCompile (message locale : string)
  | EvFormat (msg : CompiledMessage) (n : option Z) (when : string).

Record World : Type := mkWorld {
  this : Instance;
  trace : list event
}.

(** A method body: it reads and writes the instance, calls out, and
    returns or throws; what it wrote before a throw stays written. *)
Definition M (A : Type) : Type := World -> result A * World.

Definition ret {A} (a : A) : M A := fun w => (Return a, w).
Definition throw {A} (e : error) : M A := fun w => (Throw e, w).
Definition bind {A B} (c : M A) (k : A -> M B) : M B := fun w =>
  match c w with
  | (Return a, w') => k a w'
  | (Throw e, w') => (Throw e, w')
  end.
Definition get_this : M Instance := fun w => (Return (this w), w).
Definition set_messages (m : gmap string CompiledMessage) : M unit :=
  fun w =>
    (Return tt,
     {| this := {| _locale := _locale (this w);
                   _messages := m;
                   _units := _units (this w) |};
        trace := trace w |}).
Definition emit (e : event) : M unit := fun w =>
  (Return tt, {| this := this w; trace := e :: trace w |}).
Definition or_throw {A} (e : error) (o : option A) : M A :=
  match o with Some a => ret a | None => throw e end.

Notation "'let*' x ':=' c 'in' k" := (bind c (fun x => k))
  (at level 10, x name, c at level 100, k at level 200).

(** [RelativeFormat.__localeData__[this._locale].fields[units]]; the
    read of a property of the result is what throws when it is
    [undefined], so the field is returned as an option. *)
Definition lookup_field (G : Global) (locale : string) (units : jsval)
    : M (option Field) :=
  let* data := or_throw Err.type_error (__localeData__ G !! locale) in
  let* fs := or_throw Err.type_error (fields data) in
  ret (fs !! ToString units).

(** One of the two [for ... in] loops of [_resolveMessage]. *)
Fixpoint plural_options (entries : list (string * string)) (acc : string)
    : string :=
  match entries with
  | [] => acc
  | (i, phrase) :: rest =>
      plural_options rest
        (acc ++ " " ++ i ++ " {" ++ Str.replace "{0}" "#" phrase ++ "}")
  end.

Definition synthesize (relativeTime : RelativeTime) : string :=
  let future := plural_options (future relativeTime) EmptyString in
  let past := plural_options (past relativeTime) EmptyString in
  "{when, select, future {{0, plural, " ++ future ++ "}}" ++
  "past {{0, plural, " ++ past ++ "}}}".

Definition _resolveMessage (G : Global) (units : jsval)
    : M CompiledMessage :=
  let* self := get_this in
  let messages := _messages self in
  match messages !! ToString units with
  | Some msg => ret msg
  | None =>
      let* field := lookup_field G (_locale self) units in
      let* field := or_throw Err.type_error field in
      let* relativeTime := or_throw Err.type_error (relativeTime field) in
      let message := synthesize relativeTime in
      let* _ := emit (EvCompile message (_locale self)) in
      let* msg := or_throw Err.collaborator (compile message (_locale self)) in
      let* _ := set_messages (<[ToString units := msg]> messages) in
      ret msg
  end.

(** [field.relative[diff]]: the key of a number is its decimal form, and
    no offset has the key [undefined]. *)
Definition _resolveRelativeUnits (G : Global) (diff : option Z)
    (units : jsval) : M (option string) :=
  let* self := get_this in
  let* field := lookup_field G (_locale self) units in
  let* field := or_throw Err.type_error field in
  match relative field with
  | Some rel => ret (diff ≫= fun d => rel !! d)
  | None => ret None
  end.

(** [if (relativeUnits)]: found, and not the empty string. *)
Definition phrase_truthy (relativeUnits : option string) : bool :=
  match relativeUnits with
  | Some s => truthy (JStr s)
  | None => false
  end.

(** [diffInUnits < 0 ? 'past' : 'future'] *)
Definition when_of (diffInUnits : option Z) : string :=
  match diffInUnits with
  | Some d => if (d <? 0)%Z then "past" else "future"
  | None => "future"
  end.

(** [!(date && date.getTime())]: a [Date] object is truthy, its time
    value is falsy when it is [NaN] or [0]. *)
Definition date_rejected (t : option Z) : bool :=
  match t with
  | None => true
  | Some t => negb (truthy (JNum t))
  end.

(** [_format], given what [new Date()] reads from the clock. *)
Definition _format (G : Global) (now : Z) (date : date_arg) : M string :=
  let date := new_Date date in
  match date with
  | Some t =>
      if date_rejected date then throw Err.invalid_date
      else
        let diffReport := diff now t in
        let* self := get_this in
        let units :=
          js_or (_units self) (_selectUnits diffReport (thresholds G)) in
        let diffInUnits := diffReport !! ToString units in
        let* relativeUnits := _resolveRelativeUnits G diffInUnits units in
        if phrase_truthy relativeUnits
        then ret (default EmptyString relativeUnits)
        else
          let* msg := _resolveMessage G units in
          let n := Z.abs <$> diffInUnits in
          let when := when_of diffInUnits in
          let* _ := emit (EvFormat msg n when) in
          or_throw Err.collaborator (evaluate msg n when)
  | None => throw Err.invalid_date
  end.

(** [resolvedOptions()] *)
Record ResolvedOptions : Type := mkResolvedOptions {
  ro_locale : string;
  ro_units : jsval
}.

Definition resolvedOptions (self : Instance) : ResolvedOptions :=
  {| ro_locale := _locale self; ro_units := _units self |}.

(** The constructor; [units] is [options.units], [undefined] when there
    are no options or no such property. *)
Definition RelativeFormat (G : Global) (locales : locales_arg)
    (units : jsval) : result Instance :=
  locale ← _resolveLocale G locales;
  (if truthy units then _isValidUnits units else Return false)
    ≫= fun pinned : bool =>
  Return {| _locale := locale;
            _messages := ∅;
            _units := if pinned then units else JUndefined |}.

(** [this.format], the closure the constructor binds to the instance. *)
Definition format (G : Global) (now : Z) (date : date_arg) : M string :=
  _format G now date.

(** A run of [format] calls on one instance; each call sees the
    registries and the clock of its own moment. *)
Fixpoint format_calls (calls : list (Global * Z * date_arg)) (w : World)
    : World :=
  match calls with
  | [] => w
  | (G, now, date) :: rest => format_calls rest (snd (format G now date w))
  end.

(** The locale's field data for [units] defines the exact-match phrase
    [phrase] for the offset [d]. *)
Definition defines_phrase (G : Global) (locale : string) (units : jsval)
    (d : Z) (phrase : string) : Prop :=
  exists data fs field rel,
    __localeData__ G !! locale = Some data /\
    fields data = Some fs /\
    fs !! ToString units = Some field /\
    relative field = Some rel /\
    rel !! d = Some phrase.

End RelativeFormat.

Arguments mkInstance {CompiledMessage} _ _ _.
Arguments _locale {CompiledMessage} _.
Arguments _messages {CompiledMessage} _.
Arguments _units {CompiledMessage} _.
Arguments mkWorld {CompiledMessage} _ _.
Arguments this {CompiledMessage} _.
Arguments trace {CompiledMessage} _.
Arguments EvCompile {CompiledMessage} _ _.
Arguments EvFormat {CompiledMessage} _ _ _.
Arguments resolvedOptions {CompiledMessage} _.

(** The registries after the host has replaced the threshold table. *)
Definition with_thresholds (th : gmap string Z) (G : Global) : Global :=
  {| __availableLocales__ := __availableLocales__ G;
     __localeData__ := __localeData__ G;
     defaultLocale := defaultLocale G;
     thresholds := th |}.

(** The test a unit passes or fails in [_selectUnits]. *)
Definition fails (diffReport thresholds : gmap string Z) (u : string) : Prop :=
  below_threshold diffReport thresholds u = false.

(** A candidate the scan of [_resolveLocale] steps over: its key passes
    the structural test and is not registered. *)
Definition skipped (G : Global) (tag : string) : Prop :=
  Str.test_az_2_3 (locale_key tag) = true /\
  locale_key tag ∉ __availableLocales__ G.

(** A run of [__addLocaleData] calls; a call that throws leaves the
    registries as they were. *)
Fixpoint addLocaleData_all (datas : list (option LocaleData)) (G : Global)
    : Global :=
  match datas with
  | [] => G
  | data :: rest =>
      addLocaleData_all rest
        (match __addLocaleData data G with
         | Return G' => G'
         | Throw _ => G
         end)
  end.

(** Every key of [__availableLocales__] has its data, with fields, in
    [__localeData__]. *)
Definition catalog_ok (G : Global) : Prop :=
  forall k, k ∈ __availableLocales__ G ->
    exists d fs, __localeData__ G !! k = Some d /\ fields d = Some fs.

(** The data of a locale has a field with a [relativeTime] for each unit
    of [PRIORITY]. *)
Definition complete_locale (G : Global) (loc : string) : Prop :=
  exists d fs,
    __localeData__ G !! loc = Some d /\ fields d = Some fs /\
    forall u, u ∈ PRIORITY ->
      exists f rt, fs !! u = Some f /\ relativeTime f = Some rt.

(** A threshold table that is at least another one, entry by entry. *)
Definition thresholds_le (th th' : gmap string Z) : Prop :=
  forall u t, th !! u = Some t ->
    exists t', th' !! u = Some t' /\ (t <= t')%Z.

(** The instance has no pinned unit, or a unit of [PRIORITY]. *)
Definition units_wellformed {CompiledMessage : Type}
    (w : World CompiledMessage) : Prop :=
  truthy (_units (this w)) = false \/ in_PRIORITY (_units (this w)) = true.

(** The keys of the message cache are units of [PRIORITY]. *)
Definition cache_in_PRIORITY {CompiledMessage : Type}
    (w : World CompiledMessage) : Prop :=
  forall k, is_Some (_messages (this w) !! k) -> k ∈ PRIORITY.

(** The text one entry of a plural mapping adds to the pattern. *)
Definition plural_option (entry : string * string) : string :=
  " " ++ entry.1 ++ " {" ++ Str.replace "{0}" "#" entry.2 ++ "}".

(** ** Sample data

    A small English locale in the CLDR shape, and stand-ins for the two
    collaborators, to run the methods on concrete inputs. *)
Module Sample.

Definition en_relativeTime (name : string) : RelativeTime :=
  {| future := [("one", "in {0} " ++ name); ("other", "in {0} " ++ name ++ "s")];
     past := [("one", "{0} " ++ name ++ " ago");
              ("other", "{0} " ++ name ++ "s ago")] |}.

Definition en_field (name : string) (rel : option (gmap Z string)) : Field :=
  {| relative := rel; relativeTime := Some (en_relativeTime name) |}.

Definition en_day_relative : gmap Z string :=
  <[0 := "today"]> (<[1 := "tomorrow"]> (<[(-1) := "yesterday"]> ∅)).

Definition en_fields : gmap string Field :=
  <["second" := en_field "second" (Some (<[0 := "now"]> ∅))]>
  (<["minute" := en_field "minute" None]>
  (<["hour" := en_field "hour" None]>
  (<["day" := en_field "day" (Some en_day_relative)]>
  (<["month" := en_field "month" (Some (<[0 := "this month"]> ∅))]>
  (<["year" := en_field "year" (Some (<[0 := "this year"]> ∅))]> ∅))))).

Definition en : LocaleData :=
  {| locale := "en-US"; fields := Some en_fields |}.

(** The same locale with an empty phrase for the offset 0 of [day]. *)
Definition en_blank_fields : gmap string Field :=
  <["day" := en_field "day" (Some (<[0 := EmptyString]> ∅))]> en_fields.

Definition en_blank : LocaleData :=
  {| locale := "en"; fields := Some en_blank_fields |}.

(** Locale data under a tag whose root has seven letters. *)
Definition english : LocaleData :=
  {| locale := "English"; fields := Some en_fields |}.

(** The registries after [__addLocaleData(en)], [defaultLocale] set to
    the string [en]. *)
Definition G : Global :=
  {| __availableLocales__ := ["en"];
     __localeData__ := <["en" := en]> ∅;
     defaultLocale := LPrim (JStr "en");
     thresholds := default_thresholds |}.

Definition G_blank : Global :=
  {| __availableLocales__ := ["en"];
     __localeData__ := <["en" := en_blank]> ∅;
     defaultLocale := LPrim (JStr "en");
     thresholds := default_thresholds |}.

(** A message engine that keeps the pattern and the locale as the
    compiled message and prints its arguments. *)
Definition Msg : Type := (string * string)%type.
Definition compile (message locale : string) : option Msg :=
  Some (message, locale).
Definition evaluate (m : Msg) (n : option Z) (when : string)
    : option string :=
  Some (when ++ " " ++ ToString (from_option JNum JNaN n)).

(** A sample value of the [diff] parameter: plain division of the
    elapsed milliseconds. *)
Definition diff (from to : Z) : gmap string Z :=
  let ms := (to - from)%Z in
  <["second" := Z.quot ms 1000]>
  (<["minute" := Z.quot ms 60000]>
  (<["hour" := Z.quot ms 3600000]>
  (<["day" := Z.quot ms 86400000]>
  (<["month" := Z.quot ms 2629800000]>
  (<["year" := Z.quot ms 31557600000]> ∅))))).

Definition Date_parse (s : string) : option Z := None.

Definition instance (units : jsval) : Instance Msg :=
  {| _locale := "en"; _messages := ∅; _units := units |}.

Definition world (units : jsval) : World Msg :=
  {| this := instance units; trace := [] |}.

Definition format := format Msg compile evaluate diff Date_parse.
Definition _resolveMessage := _resolveMessage Msg compile.

(** The message of [day] under [G], and the world once it is cached. *)
Definition day_message : Msg := (synthesize (en_relativeTime "day"), "en").

Definition world_day : World Msg :=
  {| this := {| _locale := "en";
                _messages := <["day" := day_message]> ∅;
                _units := JUndefined |};
     trace := [EvCompile (synthesize (en_relativeTime "day")) "en"] |}.

(** The registries after [__addLocaleData(en)] on the initial ones. *)
Definition G_registered : Global :=
  {| __availableLocales__ := ["en"];
     __localeData__ := <["en" := en]> ∅;
     defaultLocale := LPrim JUndefined;
     thresholds := default_thresholds |}.

(** Then after [__addLocaleData(en_blank)]. *)
Definition G_registered_twice : Global :=
  {| __availableLocales__ := ["en"; "en"];
     __localeData__ := <["en" := en_blank]> ∅;
     defaultLocale := LPrim JUndefined;
     thresholds := default_thresholds |}.

(** Locale data under a one-letter tag, and the registries with it. *)
Definition x_data : LocaleData :=
  {| locale := "X"; fields := Some en_fields |}.

(** A locale with fields for [day] only. *)
Definition en_day_only : LocaleData :=
  {| locale := "en";
     fields := Some (<["day" := en_field "day" (Some en_day_relative)]> ∅) |}.

Definition G_day_only : Global :=
  {| __availableLocales__ := ["en"];
     __localeData__ := <["en" := en_day_only]> ∅;
     defaultLocale := LPrim (JStr "en");
     thresholds := default_thresholds |}.

End Sample.


(** * Properties *)

(** ** Unit selection *)

Section SelectUnits.

Variables diffReport thresholds : gmap string Z.

Local Abbreviation loop := (selectUnits_loop diffReport thresholds).
Local Abbreviation failing := (fails diffReport thresholds).

Lemma selectUnits_loop_first pre u post v :
  Forall failing pre ->
  below_threshold diffReport thresholds u = true ->
  loop (pre ++ u :: post) v = JStr u.
Proof.
  intros Hpre Hu. revert v.
  induction Hpre as [|x pre Hx _ IH]; intros v; simpl.
  - by rewrite Hu.
  - rewrite Hx. apply IH.
Qed.

Lemma selectUnits_loop_none l v :
  Forall failing l ->
  loop l v = from_option JStr v (last l).
Proof.
  intros Hl. revert v.
  induction Hl as [|x l Hx _ IH]; intros v; simpl; [done|].
  rewrite Hx, IH. destruct l as [|y l']; [done|]. simpl.
  destruct (last (y :: l')) eqn:E; [done|]. by apply last_None in E.
Qed.

Lemma selectUnits_loop_elem l v :
  l <> [] -> exists w, w ∈ l /\ loop l v = JStr w.
Proof.
  revert v. induction l as [|x l IH]; intros v Hne; [done|]. simpl.
  destruct (below_threshold diffReport thresholds x).
  - exists x. split; [left | done].
  - destruct l as [|y l'].
    + exists x. split; [left | done].
    + destruct (IH (JStr x)) as (w & Hw & Heq); [done|].
      exists w. split; [by right | done].
Qed.

(** A unit that fails its test is never the answer while a coarser unit
    follows it. *)
Lemma selectUnits_loop_skips pre u post v :
  NoDup (pre ++ u :: post) -> post <> [] -> failing u ->
  loop (pre ++ u :: post) v <> JStr u.
Proof.
  intros Hnd Hpost Hu. revert v.
  induction pre as [|x pre IH]; intros v; simpl.
  - rewrite Hu.
    destruct (selectUnits_loop_elem post (JStr u) Hpost) as (w & Hw & ->).
    simpl in Hnd. apply NoDup_cons in Hnd as [Hnin _].
    intros [= ->]. done.
  - simpl in Hnd. apply NoDup_cons in Hnd as [Hnin Hnd].
    destruct (below_threshold diffReport thresholds x).
    + intros [= ->]. apply Hnin. apply elem_of_app. right. left.
    + by apply IH.
Qed.

(** When the finer units fail as well, the answer lies among the coarser
    ones. *)
Lemma selectUnits_loop_escalates pre u post v :
  Forall failing pre -> failing u -> post <> [] ->
  exists w, w ∈ post /\ loop (pre ++ u :: post) v = JStr w.
Proof.
  intros Hpre Hu Hpost. revert v.
  induction Hpre as [|x pre Hx _ IH]; intros v; simpl.
  - rewrite Hu. by apply selectUnits_loop_elem.
  - rewrite Hx. apply IH.
Qed.

Lemma at_threshold_fails u d :
  diffReport !! u = Some d -> thresholds !! u = Some (Z.abs d) -> failing u.
Proof.
  intros Hd Ht. unfold fails, below_threshold.
  rewrite Hd, Ht. apply Z.ltb_irrefl.
Qed.

End SelectUnits.

Lemma below_threshold_spec (diffReport thresholds : gmap string Z) u :
  below_threshold diffReport thresholds u = true <->
  exists d t, diffReport !! u = Some d /\ thresholds !! u = Some t /\
              (Z.abs d < t)%Z.
Proof.
  unfold below_threshold. split.
  - destruct (diffReport !! u) as [d|], (thresholds !! u) as [t|]; try done.
    intros H%Z.ltb_lt. by exists d, t.
  - intros (d & t & -> & -> & H). by apply Z.ltb_lt.
Qed.

Lemma NoDup_PRIORITY : NoDup PRIORITY.
Proof. by apply (bool_decide_unpack _). Qed.

(** C1.  [_selectUnits] tests a unit by a strict comparison of the
    magnitude of its diff with its threshold; it returns the first unit of
    [PRIORITY] that passes; a unit whose magnitude equals its threshold
    fails, so that it is not the answer and, when the finer units failed
    too, the answer is a coarser unit; and when no unit passes the answer
    is [year]. *)
Theorem selectUnits_first_below_threshold
    (diffReport thresholds : gmap string Z) :
  (forall u, below_threshold diffReport thresholds u = true <->
     exists d t, diffReport !! u = Some d /\ thresholds !! u = Some t /\
                 (Z.abs d < t)%Z) /\
  (forall pre u post,
     PRIORITY = (pre ++ u :: post)%list ->
     Forall (fails diffReport thresholds) pre ->
     below_threshold diffReport thresholds u = true ->
     _selectUnits diffReport thresholds = JStr u) /\
  (forall pre u post d,
     PRIORITY = (pre ++ u :: post)%list -> post <> [] ->
     diffReport !! u = Some d -> thresholds !! u = Some (Z.abs d) ->
     _selectUnits diffReport thresholds <> JStr u /\
     (Forall (fails diffReport thresholds) pre ->
      exists w, w ∈ post /\ _selectUnits diffReport thresholds = JStr w)) /\
  (Forall (fails diffReport thresholds) PRIORITY ->
   _selectUnits diffReport thresholds = JStr "year").
Proof.
  split; [apply below_threshold_spec|].
  split; [|split].
  - intros pre u post HP Hpre Hu. unfold _selectUnits. rewrite HP.
    by apply selectUnits_loop_first.
  - intros pre u post d HP Hpost Hd Ht.
    pose proof (at_threshold_fails _ _ _ _ Hd Ht) as Hu.
    unfold _selectUnits. rewrite HP. split.
    + apply selectUnits_loop_skips; [|done..]. rewrite <- HP.
      apply NoDup_PRIORITY.
    + intros Hpre. by apply selectUnits_loop_escalates.
  - intros Hall. unfold _selectUnits.
    by rewrite selectUnits_loop_none.
Qed.

(** The boundary of the default table: 45 seconds are reported in
    minutes. *)
Lemma selectUnits_first_below_threshold_witness :
  _selectUnits (Sample.diff 0 (-45000)) default_thresholds <> JStr "second" /\
  exists w, w ∈ ["minute"; "hour"; "day"; "month"; "year"] /\
    _selectUnits (Sample.diff 0 (-45000)) default_thresholds = JStr w.
Proof.
  destruct (selectUnits_first_below_threshold
              (Sample.diff 0 (-45000)) default_thresholds)
    as (_ & _ & H & _).
  destruct (H [] "second" ["minute"; "hour"; "day"; "month"; "year"] (-45)%Z
              eq_refl ltac:(done) eq_refl eq_refl) as [H1 H2].
  split; [exact H1 | apply H2; constructor].
Defined.

(** Scenario A of the spec, and the default table at and around its
    boundaries; [year] has no threshold of its own. *)
Example selectUnits_scenario_A :
  _selectUnits (Sample.diff 0 (-30000)) default_thresholds = JStr "second" /\
  Sample.format Sample.G 1000000 (DPrim (JNum 970000))
    (Sample.world JUndefined) =
  (Return "past 30",
   {| this := {| _locale := "en";
                 _messages :=
                   <["second" :=
                       (synthesize (Sample.en_relativeTime "second"), "en")]> ∅;
                 _units := JUndefined |};
      trace :=
        [EvFormat (synthesize (Sample.en_relativeTime "second"), "en")
           (Some 30%Z) "past";
         EvCompile (synthesize (Sample.en_relativeTime "second")) "en"] |}).
Proof. split; reflexivity. Qed.

Example selectUnits_default_boundaries :
  _selectUnits (Sample.diff 0 44000) default_thresholds = JStr "second" /\
  _selectUnits (Sample.diff 0 45000) default_thresholds = JStr "minute" /\
  _selectUnits (Sample.diff 0 (45 * 60000)) default_thresholds = JStr "hour" /\
  _selectUnits (Sample.diff 0 (22 * 3600000)) default_thresholds = JStr "day" /\
  _selectUnits (Sample.diff 0 (26 * 86400000)) default_thresholds
  = JStr "month" /\
  _selectUnits (Sample.diff 0 (11 * 2629800000)) default_thresholds
  = JStr "year" /\
  _selectUnits (Sample.diff 0 (500 * 31557600000)) default_thresholds
  = JStr "year".
Proof. repeat split; reflexivity. Qed.

Example synthesize_day :
  synthesize (Sample.en_relativeTime "day") =
  "{when, select, future {{0, plural,  one {in # day} other {in # days}}}" ++
  "past {{0, plural,  one {# day ago} other {# days ago}}}}".
Proof. reflexivity. Qed.

(** ** Locale keys and the structural test *)

Lemma split_first_no_sep sep (a : string) :
  Forall (fun c => c <> sep) (list_ascii_of_string a) ->
  Str.first (Str.split sep a) = a.
Proof.
  induction a as [|c a IH]; simpl; [done|].
  intros [Hc Ha]%Forall_cons.
  destruct (Ascii.eqb_spec c sep) as [->|_]; [done|].
  specialize (IH Ha). destruct (Str.split sep a); simpl in *; by subst.
Qed.

Lemma split_first_segment sep (a b : string) :
  Forall (fun c => c <> sep) (list_ascii_of_string a) ->
  Str.first (Str.split sep (a ++ String sep b)) = a.
Proof.
  induction a as [|c a IH]; simpl.
  - intros _. by rewrite Ascii.eqb_refl.
  - intros [Hc Ha]%Forall_cons.
    destruct (Ascii.eqb_spec c sep) as [->|_]; [done|].
    specialize (IH Ha).
    destruct (Str.split sep (a ++ String sep b)); simpl in *; by subst.
Qed.

(** The key of a tag is its first hyphen-delimited segment in lower
    case. *)
Lemma locale_key_first_segment (a b : string) :
  Forall (fun c => c <> "-"%char) (list_ascii_of_string a) ->
  locale_key a = Str.toLowerCase a /\
  locale_key (a ++ String "-" b) = Str.toLowerCase a.
Proof.
  intros Ha. unfold locale_key.
  by rewrite split_first_no_sep, split_first_segment.
Qed.

(** What the unanchored pattern accepts: two lower-case letters in a row,
    anywhere. *)
Lemma test_az_2_3_spec (s : string) :
  Str.test_az_2_3 s = true <->
  exists pre a b post,
    s = pre ++ String a (String b post) /\
    Str.is_lower a = true /\ Str.is_lower b = true.
Proof.
  split.
  - induction s as [|c s IH]; [done|].
    cbn [Str.test_az_2_3]. intros [H|H]%orb_true_iff.
    + destruct s as [|b post]; [done|].
      apply andb_true_iff in H as [Hc Hb].
      by exists EmptyString, c, b, post.
    + destruct (IH H) as (pre & a & b & post & -> & Ha & Hb).
      by exists (String c pre), a, b, post.
  - intros (pre & a & b & post & -> & Ha & Hb).
    induction pre as [|c pre IH].
    + simpl. by rewrite Ha, Hb.
    + change (String c pre ++ String a (String b post))
        with (String c (pre ++ String a (String b post))).
      cbn [Str.test_az_2_3]. rewrite IH. apply orb_true_r.
Qed.

(** Every root of 2 to 3 letters passes the test of the code. *)
Lemma is_2_3_letters_accepted (s : string) :
  Str.is_2_3_letters s = true -> Str.test_az_2_3 s = true.
Proof.
  unfold Str.is_2_3_letters.
  destruct s as [|a [|b s]]; try done.
  intros [_ H]%andb_true_iff. simpl in H.
  apply andb_true_iff in H as [Ha [Hb _]%andb_true_iff].
  cbn [Str.test_az_2_3 Str.match_az_2_3_at]. by rewrite Ha, Hb.
Qed.

(** ** Locale resolution *)

Section ResolveLocale.

Variable G : Global.

Local Abbreviation scan := (resolveLocale_loop (__availableLocales__ G)).

Lemma resolveLocale_loop_skip locales pre rest :
  Forall (skipped G) pre ->
  scan locales (pre ++ rest) = scan locales rest.
Proof.
  induction 1 as [|tag pre [Hv Hr] _ IH]; [done|]. simpl.
  rewrite Hv. simpl. by rewrite bool_decide_eq_false_2.
Qed.

Lemma resolveLocale_loop_abort locales pre tag post :
  Forall (skipped G) pre ->
  Str.test_az_2_3 (locale_key tag) = false ->
  scan locales (pre ++ tag :: post) =
  Throw (Err.not_structurally_valid (locale_key tag)).
Proof.
  intros Hpre Hbad. rewrite resolveLocale_loop_skip by done.
  simpl. by rewrite Hbad.
Qed.

Lemma resolveLocale_loop_return locales pre tag post :
  Forall (skipped G) pre ->
  Str.test_az_2_3 (locale_key tag) = true ->
  locale_key tag ∈ __availableLocales__ G ->
  scan locales (pre ++ tag :: post) = Return (locale_key tag).
Proof.
  intros Hpre Hv Hr. rewrite resolveLocale_loop_skip by done.
  simpl. rewrite Hv. simpl. by rewrite bool_decide_eq_true_2.
Qed.

Lemma resolveLocale_loop_malformed locales l e :
  scan locales l = Throw e -> class e = MalformedLocaleTag ->
  exists pre tag post,
    l = (pre ++ tag :: post)%list /\ Forall (skipped G) pre /\
    Str.test_az_2_3 (locale_key tag) = false.
Proof.
  induction l as [|tag l IH]; simpl.
  - intros [= <-]. done.
  - destruct (Str.test_az_2_3 (locale_key tag)) eqn:Hv; simpl.
    + case_bool_decide as Hr; [done|]. intros He Hc.
      destruct (IH He Hc) as (pre & bad & post & -> & Hpre & Hbad).
      exists (tag :: pre), bad, post. split; [done|].
      split; [|done]. by constructor.
    + intros _ _. exists [], tag, l. by repeat split.
Qed.

(** The errors of resolution are never about units. *)
Lemma resolveLocale_loop_error_class locales l e :
  scan locales l = Throw e ->
  class e = MalformedLocaleTag \/ class e = UnsupportedLocale.
Proof.
  induction l as [|tag l IH]; simpl.
  - intros [= <-]. by right.
  - destruct (Str.test_az_2_3 (locale_key tag)); simpl.
    + case_bool_decide; [done | apply IH].
    + intros [= <-]. by left.
Qed.

Lemma resolveLocale_error_class locales e :
  _resolveLocale G locales = Throw e -> class e <> InvalidUnit.
Proof.
  unfold _resolveLocale.
  destruct (if negb (locales_truthy locales) then defaultLocale G
            else locales) as [[]|l]; try by intros [= <-].
  all: intros [-> | ->]%resolveLocale_loop_error_class; done.
Qed.

End ResolveLocale.

(** C4.  The scan steps over candidates that are structurally valid and
    not registered, and only over those: a structurally invalid candidate
    that the scan reaches ends resolution there with [MalformedLocaleTag],
    whatever follows it; a valid registered one is returned; and
    [MalformedLocaleTag] is raised only in the first of these cases. *)
Theorem resolveLocale_invalid_candidate_aborts (G : Global)
    (pre : list string) (tag : string) (post : list string) :
  Forall (skipped G) pre ->
  (Str.test_az_2_3 (locale_key tag) = false ->
   _resolveLocale G (LArray (pre ++ tag :: post)) =
   Throw (Err.not_structurally_valid (locale_key tag))) /\
  (Str.test_az_2_3 (locale_key tag) = true ->
   locale_key tag ∈ __availableLocales__ G ->
   _resolveLocale G (LArray (pre ++ tag :: post)) =
   Return (locale_key tag)) /\
  (forall l e,
     _resolveLocale G (LArray l) = Throw e ->
     class e = MalformedLocaleTag ->
     exists pre' bad post',
       l = (pre' ++ bad :: post')%list /\ Forall (skipped G) pre' /\
       Str.test_az_2_3 (locale_key bad) = false).
Proof.
  intros Hpre. split; [|split].
  - intros Hbad. by apply resolveLocale_loop_abort.
  - intros Hv Hr. by apply resolveLocale_loop_return.
  - intros l e. apply resolveLocale_loop_malformed.
Qed.

Lemma resolveLocale_invalid_candidate_aborts_witness :
  Forall (skipped Sample.G) ["fr-FR"] /\
  _resolveLocale Sample.G (LArray ["fr-FR"; "x"; "en-US"]) =
  Throw (Err.not_structurally_valid "x").
Proof.
  assert (Hpre : Forall (skipped Sample.G) ["fr-FR"]).
  { repeat constructor. by apply (bool_decide_unpack _). }
  split; [exact Hpre|].
  exact (proj1 (resolveLocale_invalid_candidate_aborts
                  Sample.G ["fr-FR"] "x" ["en-US"] Hpre) eq_refl).
Defined.

(** An invalid tag before a valid registered one: resolution fails. *)
Lemma resolveLocale_later_candidate_not_reached :
  Str.test_az_2_3 (locale_key "x") = false /\
  Str.test_az_2_3 (locale_key "en-US") = true /\
  locale_key "en-US" ∈ __availableLocales__ Sample.G /\
  _resolveLocale Sample.G (LArray ["x"; "en-US"]) <>
  Return (locale_key "en-US") /\
  _resolveLocale Sample.G (LArray ["x"; "en-US"]) =
  Throw (Err.not_structurally_valid "x").
Proof.
  repeat split; try done.
  by apply (bool_decide_unpack _).
Qed.

(** Scenario C of the spec: an unsupported, well-formed first tag. *)
Example resolveLocale_scenario_C :
  _resolveLocale Sample.G (LArray ["xx-YY"; "en-US"]) = Return "en".
Proof. reflexivity. Qed.

(** C5.  The key of a tag is its first segment in lower case, and the
    structural test is the unanchored pattern: a root of four letters, or
    one with a digit after two letters, passes it.  Resolution then
    reports the tag as unsupported, not as malformed, and resolves it once
    a locale is registered under that key. *)
Theorem resolveLocale_accepts_longer_roots :
  locale_key "ENGL-us" = "engl" /\
  Str.is_2_3_letters (locale_key "ENGL-us") = false /\
  Str.test_az_2_3 (locale_key "ENGL-us") = true /\
  _resolveLocale Sample.G (LArray ["ENGL-us"]) =
  Throw (Err.no_locale_data_for ["ENGL-us"]) /\
  Str.is_2_3_letters (locale_key "en1") = false /\
  _resolveLocale Sample.G (LArray ["en1"]) =
  Throw (Err.no_locale_data_for ["en1"]) /\
  exists G',
    __addLocaleData (Some Sample.english) Sample.G = Return G' /\
    Str.is_2_3_letters (locale_key "english") = false /\
    _resolveLocale G' (LArray ["english"]) = Return "english".
Proof.
  repeat split.
  eexists. repeat split.
Qed.

(** C6.  A falsy [locales] argument ([undefined], [null], the empty
    string, ...) is replaced by [defaultLocale] and resolution goes on as
    if the default had been passed; the empty array is not falsy and
    fails, whatever the default is. *)
Theorem resolveLocale_falsy_falls_back (G : Global) (locales : locales_arg) :
  locales_truthy locales = false ->
  _resolveLocale G locales = _resolveLocale G (defaultLocale G) /\
  _resolveLocale G (LArray []) = Throw (Err.no_locale_data_for []).
Proof.
  intros H. split; [|done].
  unfold _resolveLocale. rewrite H. simpl.
  by destruct (locales_truthy (defaultLocale G)).
Qed.

Lemma resolveLocale_falsy_falls_back_witness :
  locales_truthy (LPrim JUndefined) = false /\
  _resolveLocale Sample.G (LPrim JUndefined) =
  _resolveLocale Sample.G (defaultLocale Sample.G) /\
  _resolveLocale Sample.G (LArray []) = Throw (Err.no_locale_data_for []).
Proof.
  split; [reflexivity|].
  exact (resolveLocale_falsy_falls_back Sample.G (LPrim JUndefined) eq_refl).
Defined.

(** The empty array of tags with a registered default: no fallback. *)
Lemma resolveLocale_empty_array_no_fallback :
  _resolveLocale Sample.G (defaultLocale Sample.G) = Return "en" /\
  _resolveLocale Sample.G (LArray []) <>
  _resolveLocale Sample.G (defaultLocale Sample.G) /\
  _resolveLocale Sample.G (LArray []) = Throw (Err.no_locale_data_for []).
Proof. repeat split; done. Qed.

(** ** The [units] option *)

Lemma ends_with_s_uint (d : Decimal.uint) :
  Str.ends_with_s (NilEmpty.string_of_uint d) = false.
Proof.
  induction d; simpl; try done;
    by destruct (NilEmpty.string_of_uint d).
Qed.

Lemma ends_with_s_number (n : Z) :
  Str.ends_with_s (ToString (JNum n)) = false.
Proof.
  simpl. unfold NilZero.string_of_int, NilZero.string_of_uint.
  destruct (Z.to_int n) as [d|d].
  - destruct d; try done; apply (ends_with_s_uint (_ d)).
  - pose proof (ends_with_s_uint d) as H.
    destruct d; try done; simpl in *;
      by destruct (NilEmpty.string_of_uint d).
Qed.

(** Of the primitives only a string can end in [s]. *)
Lemma ends_with_s_ToString (v : jsval) :
  Str.ends_with_s (ToString v) = true -> exists s, v = JStr s.
Proof.
  destruct v as [| |[]|n| |s]; try done.
  - by rewrite ends_with_s_number.
  - by exists s.
Qed.

Lemma ends_with_s_app (s : string) : Str.ends_with_s (s ++ "s") = true.
Proof.
  induction s as [|c s IH]; [done|].
  change (String c s ++ "s") with (String c (s ++ "s")).
  cbn [Str.ends_with_s]. by destruct (s ++ "s") eqn:E; [destruct s|].
Qed.

Lemma chop_app (s : string) : Str.chop (s ++ "s") = s.
Proof.
  unfold Str.chop. induction s as [|c s IH]; [done|].
  change (String c s ++ "s") with (String c (s ++ "s")).
  cbn [String.length]. rewrite Nat.sub_1_r. cbn [Nat.pred].
  destruct (String.length (s ++ "s")) as [|k] eqn:E.
  - by destruct s.
  - cbn [String.substring]. f_equal. rewrite Nat.sub_1_r in IH. apply IH.
Qed.

Lemma ends_with_s_chop (x : string) :
  Str.ends_with_s x = true -> x = Str.chop x ++ "s".
Proof.
  induction x as [|c x IH]; [done|]. cbn [Str.ends_with_s].
  destruct x as [|c' x'].
  - intros ->%Ascii.eqb_eq. done.
  - intros H. specialize (IH H). rewrite IH at 1.
    unfold Str.chop in *. cbn [String.length]. rewrite !Nat.sub_1_r.
    cbn [Nat.pred String.substring]. rewrite Nat.sub_1_r in IH.
    cbn [String.length Nat.pred] in IH. done.
Qed.

(** No unit of [PRIORITY] is the plural of another one. *)
Lemma plural_not_in_PRIORITY (s : string) :
  in_PRIORITY (JStr s) = true ->
  in_PRIORITY (JStr (s ++ "s")) = false /\ truthy (JStr s) = true.
Proof.
  intros H%bool_decide_eq_true. unfold PRIORITY in H.
  repeat (apply elem_of_cons in H as [->|H]; [done|]).
  by apply elem_of_nil in H.
Qed.

Lemma isValidUnits_plural (s : string) :
  in_PRIORITY (JStr s) = true ->
  _isValidUnits (JStr (s ++ "s")) = Throw (Err.did_you_mean (s ++ "s") s).
Proof.
  intros Hs. destruct (plural_not_in_PRIORITY s Hs) as [Hn Ht].
  unfold _isValidUnits. rewrite Hn.
  cbn [ToString]. rewrite ends_with_s_app. cbn [substring_to_last].
  rewrite chop_app. cbn [mbind result_bind].
  by rewrite Ht, Hs.
Qed.

Lemma isValidUnits_other (units : jsval) :
  in_PRIORITY units = false ->
  (forall s, in_PRIORITY (JStr s) = true -> units <> JStr (s ++ "s")) ->
  _isValidUnits units = Throw (Err.must_be_one_of (ToString units)).
Proof.
  intros Hn Hp. unfold _isValidUnits. rewrite Hn.
  destruct (Str.ends_with_s (ToString units)) eqn:He; [|done].
  destruct (ends_with_s_ToString _ He) as [x ->].
  cbn [substring_to_last mbind result_bind ToString] in *.
  destruct (in_PRIORITY (JStr (Str.chop x))) eqn:Hc.
  - exfalso. apply (Hp _ Hc). f_equal. by apply ends_with_s_chop.
  - by rewrite andb_false_r.
Qed.

Section Constructor.

Variable CompiledMessage : Type.

Local Abbreviation new := (RelativeFormat CompiledMessage).

Lemma constructor_pins units G locales loc :
  _resolveLocale G locales = Return loc ->
  in_PRIORITY units = true ->
  new G locales units =
  Return {| _locale := loc; _messages := ∅; _units := units |}.
Proof.
  intros Hl Hu. unfold RelativeFormat. rewrite Hl. cbn [mbind result_bind].
  destruct units as [| | | | |s]; try done.
  unfold _isValidUnits. rewrite Hu.
  apply plural_not_in_PRIORITY in Hu as [_ ->]. done.
Qed.

Lemma constructor_validates units G locales loc e :
  _resolveLocale G locales = Return loc ->
  truthy units = true ->
  _isValidUnits units = Throw e ->
  new G locales units = Throw e.
Proof.
  intros Hl Ht He. unfold RelativeFormat.
  rewrite Hl. cbn [mbind result_bind]. by rewrite Ht, He.
Qed.

Lemma constructor_falsy units G locales :
  truthy units = false ->
  new G locales units =
  loc ← _resolveLocale G locales;
  Return {| _locale := loc; _messages := ∅; _units := JUndefined |}.
Proof.
  intros Ht. unfold RelativeFormat. rewrite Ht.
  by destruct (_resolveLocale G locales).
Qed.

Lemma isValidUnits_true units b :
  _isValidUnits units = Return b -> b = true /\ in_PRIORITY units = true.
Proof.
  unfold _isValidUnits. destruct (in_PRIORITY units); [by intros [= <-]|].
  destruct (Str.ends_with_s (ToString units)); cbn [mbind result_bind].
  - destruct (substring_to_last units) as [sg|]; [|done].
    cbn [mbind result_bind]. by destruct (_ && _).
  - done.
Qed.

(** What the constructor leaves in [_units]: the option itself when it
    is a member of [PRIORITY], [undefined] otherwise. *)
Lemma constructor_units units G locales inst :
  new G locales units = Return inst ->
  _units inst = (if in_PRIORITY units then units else JUndefined) /\
  _messages inst = ∅ /\
  _resolveLocale G locales = Return (_locale inst).
Proof.
  unfold RelativeFormat.
  destruct (_resolveLocale G locales) as [loc|]; [|done].
  cbn [mbind result_bind].
  destruct (truthy units) eqn:Ht.
  - destruct (_isValidUnits units) as [b|] eqn:Hv; [|done].
    apply isValidUnits_true in Hv as [-> Hin].
    cbn [mbind result_bind]. intros [= <-]. by rewrite Hin.
  - cbn [mbind result_bind]. intros [= <-]. cbn.
    destruct units as [| | | | |s]; try done.
    replace s with EmptyString; [done|].
    simpl in Ht. apply negb_false_iff, String.eqb_eq in Ht. done.
Qed.

End Constructor.




(** C10.  A falsy [units] option never reaches validation: the
    constructor does what it does without the option, so it raises no
    [InvalidUnit], and when the locales resolve it returns an instance
    with no pinned unit, which selects its units call by call.  An
    [InvalidUnit] error comes from a truthy option only. *)
Theorem constructor_ignores_falsy_units (CompiledMessage : Type)
    (G : Global) (locales : locales_arg) (units : jsval) :
  truthy units = false ->
  RelativeFormat CompiledMessage G locales units =
  RelativeFormat CompiledMessage G locales JUndefined /\
  (forall e, RelativeFormat CompiledMessage G locales units = Throw e ->
             class e <> InvalidUnit) /\
  (forall loc, _resolveLocale G locales = Return loc ->
     RelativeFormat CompiledMessage G locales units =
     Return {| _locale := loc; _messages := ∅; _units := JUndefined |}) /\
  (forall inst selected,
     RelativeFormat CompiledMessage G locales units = Return inst ->
     js_or (_units inst) selected = selected) /\
  (forall units' e,
     RelativeFormat CompiledMessage G locales units' = Throw e ->
     class e = InvalidUnit -> truthy units' = true).
Proof.
  intros Ht.
  assert (Hno : forall u e, truthy u = false ->
            RelativeFormat CompiledMessage G locales u = Throw e ->
            class e <> InvalidUnit).
  { intros u e Hu. rewrite (constructor_falsy _ _ _ _ Hu).
    destruct (_resolveLocale G locales) eqn:Hl; [done|].
    cbn [mbind result_bind]. intros [= <-].
    by eapply resolveLocale_error_class. }
  split; [|split; [|split; [|split]]].
  - by rewrite !constructor_falsy.
  - intros e. by apply Hno.
  - intros loc Hl. rewrite constructor_falsy by done. by rewrite Hl.
  - intros inst selected. rewrite constructor_falsy by done.
    destruct (_resolveLocale G locales); [|done].
    cbn [mbind result_bind]. by intros [= <-].
  - intros u e He Hc. destruct (truthy u) eqn:Hu; [done|].
    by destruct (Hno u e Hu He).
Qed.

Lemma constructor_ignores_falsy_units_witness :
  truthy (JNum 0) = false /\
  RelativeFormat Sample.Msg Sample.G (LPrim (JStr "en")) (JNum 0) =
  Return (Sample.instance JUndefined).
Proof.
  split; [reflexivity|].
  exact (proj1 (proj2 (proj2 (constructor_ignores_falsy_units
           Sample.Msg Sample.G (LPrim (JStr "en")) (JNum 0) eq_refl)))
           "en" eq_refl).
Defined.

(** ** The methods of an instance *)

Section Methods.

Variable CompiledMessage : Type.
Variable compile : string -> string -> option CompiledMessage.
Variable evaluate : CompiledMessage -> option Z -> string -> option string.
Variable diff : Z -> Z -> gmap string Z.
Variable Date_parse : string -> option Z.

Local Abbreviation World' := (World CompiledMessage).
Local Abbreviation format' :=
  (format CompiledMessage compile evaluate diff Date_parse).
Local Abbreviation resolveMessage' :=
  (_resolveMessage CompiledMessage compile).
Local Abbreviation resolveRelativeUnits' :=
  (_resolveRelativeUnits CompiledMessage).
Local Abbreviation format_calls' :=
  (format_calls CompiledMessage compile evaluate diff Date_parse).

Ltac unfold_methods :=
  unfold format, _format, _resolveMessage, _resolveRelativeUnits,
    lookup_field, bind, or_throw, ret, throw, emit, set_messages,
    get_this in *.

Ltac run := repeat (case_match; simplify_eq/=; try done).

(** *** Dates *)

Lemma format_rejected G now date (w : World') :
  date_rejected (new_Date Date_parse date) = true ->
  format' G now date w = (Throw Err.invalid_date, w).
Proof.
  intros H. unfold format, _format.
  destruct (new_Date Date_parse date); [by rewrite H | done].
Qed.

Lemma date_rejected_iff (t : option Z) :
  date_rejected t = true <-> t = None \/ t = Some 0%Z.
Proof.
  destruct t as [t|]; simpl.
  - rewrite negb_true_iff, negb_false_iff, Z.eqb_eq. split.
    + intros ->. by right.
    + by intros [|[= ->]].
  - split; [by left | done].
Qed.

(** [format] raises [InvalidDate] exactly on a time value that is [NaN]
    or [0], and leaves the instance and the trace as they were. *)
Lemma format_invalid_date_iff G now date (w : World') :
  (exists e, (format' G now date w).1 = Throw e /\ class e = InvalidDate)
  <-> new_Date Date_parse date = None \/ new_Date Date_parse date = Some 0%Z.
Proof.
  rewrite <- date_rejected_iff. split.
  - intros (e & He & Hc).
    destruct (date_rejected (new_Date Date_parse date)) eqn:Hr; [done|].
    exfalso. revert He. unfold_methods. rewrite Hr.
    run; intros [= <-]; done.
  - intros H. rewrite format_rejected by done. by eexists.
Qed.

Lemma format_invalid_date_unchanged G now date (w : World') e :
  (format' G now date w).1 = Throw e -> class e = InvalidDate ->
  (format' G now date w).2 = w.
Proof.
  intros He Hc.
  assert (date_rejected (new_Date Date_parse date) = true) as Hr.
  { apply date_rejected_iff, (format_invalid_date_iff G now date w).
    by exists e. }
  by rewrite format_rejected.
Qed.

(** *** What a call keeps *)

Lemma format_preserves G now date (w : World') :
  _locale (this (format' G now date w).2) = _locale (this w) /\
  _units (this (format' G now date w).2) = _units (this w) /\
  (forall k m, _messages (this w) !! k = Some m ->
               _messages (this (format' G now date w).2) !! k = Some m) /\
  exists evs, trace (format' G now date w).2 = (evs ++ trace w)%list.
Proof.
  unfold_methods.
  run; repeat split; try done;
    try (by exists []); try (by eexists [_]); try (by eexists [_; _]).
  all: intros k m' Hk; rewrite lookup_insert_ne; [done|congruence].
Qed.

Lemma format_calls_preserves calls (w : World') :
  _locale (this (format_calls' calls w)) = _locale (this w) /\
  _units (this (format_calls' calls w)) = _units (this w) /\
  (forall k m, _messages (this w) !! k = Some m ->
               _messages (this (format_calls' calls w)) !! k = Some m).
Proof.
  revert w. induction calls as [|[[G now] date] calls IH]; intros w; [done|].
  cbn [format_calls].
  destruct (format_preserves G now date w) as (Hl & Hu & Hm & _).
  destruct (IH (format' G now date w).2) as (Hl' & Hu' & Hm').
  split; [congruence|]. split; [congruence|].
  intros k m Hk. by apply Hm', Hm.
Qed.

(** *** Exact-match phrases *)

Lemma resolveRelativeUnits_found G units d phrase (w : World') :
  defines_phrase G (_locale (this w)) units d phrase ->
  resolveRelativeUnits' G (Some d) units w = (Return (Some phrase), w).
Proof.
  intros (data & fs & field & rel & Hd & Hf & Hu & Hr & Hp).
  unfold_methods. rewrite Hd, Hf, Hu, Hr. simpl. by rewrite Hp.
Qed.

(** *** The message cache *)

Lemma resolveMessage_cached G units msg (w : World') :
  _messages (this w) !! ToString units = Some msg ->
  resolveMessage' G units w = (Return msg, w).
Proof. intros H. unfold_methods. by rewrite H. Qed.

Lemma resolveMessage_built G units msg (w w1 : World') :
  _messages (this w) !! ToString units = None ->
  resolveMessage' G units w = (Return msg, w1) ->
  (exists data fs field rt,
     __localeData__ G !! _locale (this w) = Some data /\
     fields data = Some fs /\
     fs !! ToString units = Some field /\
     relativeTime field = Some rt /\
     compile (synthesize rt) (_locale (this w)) = Some msg /\
     trace w1 = EvCompile (synthesize rt) (_locale (this w)) :: trace w) /\
  _messages (this w1) = <[ToString units := msg]> (_messages (this w)) /\
  _locale (this w1) = _locale (this w) /\
  _units (this w1) = _units (this w).
Proof.
  intros Hnone. unfold_methods. rewrite Hnone.
  run. intros [= <- <-]. split; [|done]. by eexists _, _, _, _.
Qed.

(** *** Pinned units *)

Lemma format_ignores_thresholds G th now date (w : World') :
  truthy (_units (this w)) = true ->
  format' (with_thresholds th G) now date w = format' G now date w.
Proof.
  intros Ht. unfold format, _format, js_or, get_this, bind.
  destruct (new_Date Date_parse date); [|done].
  destruct (date_rejected _); [done|]. by rewrite Ht.
Qed.

End Methods.

(** ** The claims about [format] *)

(** C2.  On a date that [format] accepts, when the field data of the
    unit in use defines a non-empty exact-match phrase for the signed
    diff, [format] returns that phrase as it is; the cache and the trace of
    calls into the message engine are as before the call, so no message
    was synthesized, compiled or evaluated. *)
Theorem format_returns_exact_phrase (CompiledMessage : Type)
    (compile : string -> string -> option CompiledMessage)
    (evaluate : CompiledMessage -> option Z -> string -> option string)
    (diff : Z -> Z -> gmap string Z) (Date_parse : string -> option Z)
    (G : Global) (now : Z) (date : date_arg) (w : World CompiledMessage)
    (t d : Z) (units : jsval) (phrase : string) :
  new_Date Date_parse date = Some t -> t <> 0%Z ->
  units = js_or (_units (this w)) (_selectUnits (diff now t) (thresholds G)) ->
  diff now t !! ToString units = Some d ->
  defines_phrase G (_locale (this w)) units d phrase ->
  phrase <> EmptyString ->
  format CompiledMessage compile evaluate diff Date_parse G now date w =
  (Return phrase, w).
Proof.
  intros Hdate Ht -> Hd Hdef Hne.
  unfold format, _format. rewrite Hdate.
  assert (date_rejected (Some t) = false) as ->.
  { simpl. by rewrite negb_false_iff, negb_true_iff, Z.eqb_neq. }
  unfold bind at 1. unfold get_this at 1. cbn [this].
  rewrite Hd. unfold bind at 1.
  rewrite (resolveRelativeUnits_found _ _ _ _ _ _ Hdef).
  unfold phrase_truthy, truthy.
  destruct (String.eqb_spec phrase EmptyString) as [|_]; done.
Qed.

(** The phrase of the English data for a day diff of 0. *)
Lemma format_returns_exact_phrase_witness :
  Sample.format Sample.G 1000000 (DPrim (JNum 1000500))
    (Sample.world (JStr "day")) =
  (Return "today", Sample.world (JStr "day")).
Proof.
  apply (format_returns_exact_phrase Sample.Msg Sample.compile
           Sample.evaluate Sample.diff Sample.Date_parse Sample.G 1000000
           (DPrim (JNum 1000500)) (Sample.world (JStr "day"))
           1000500 0 (JStr "day") "today").
  - reflexivity.
  - discriminate.
  - reflexivity.
  - reflexivity.
  - exists Sample.en, Sample.en_fields,
      (Sample.en_field "day" (Some Sample.en_day_relative)),
      Sample.en_day_relative.
    repeat split; reflexivity.
  - discriminate.
Defined.

(** An empty phrase for the offset 0 of [day]: [format] goes on to the
    message of the unit. *)
Lemma format_skips_empty_phrase :
  new_Date Sample.Date_parse (DPrim (JNum 1000500)) = Some 1000500%Z /\
  Sample.diff 1000000 1000500 !! "day" = Some 0%Z /\
  defines_phrase Sample.G_blank "en" (JStr "day") 0 EmptyString /\
  (Sample.format Sample.G_blank 1000000 (DPrim (JNum 1000500))
     (Sample.world (JStr "day"))).1 = Return "future 0" /\
  exists msg message,
    trace (Sample.format Sample.G_blank 1000000 (DPrim (JNum 1000500))
             (Sample.world (JStr "day"))).2 =
    [EvFormat msg (Some 0%Z) "future"; EvCompile message "en"].
Proof.
  split; [reflexivity|]. split; [reflexivity|]. split.
  - exists Sample.en_blank, Sample.en_blank_fields,
      (Sample.en_field "day" (Some (<[0%Z := EmptyString]> ∅))),
      (<[0%Z := EmptyString]> ∅).
    repeat split; reflexivity.
  - split; [reflexivity|]. eexists _, _. reflexivity.
Qed.

(** C3.  The time value 0, the first instant of 1970, is an instant like
    any other, and [format] raises [InvalidDate] on it, given as a number
    or as a [Date]; the instance and the trace are left as they were. *)
Theorem format_rejects_the_epoch (CompiledMessage : Type)
    (compile : string -> string -> option CompiledMessage)
    (evaluate : CompiledMessage -> option Z -> string -> option string)
    (diff : Z -> Z -> gmap string Z) (Date_parse : string -> option Z)
    (G : Global) (now : Z) (w : World CompiledMessage) :
  new_Date Date_parse (DPrim (JNum 0)) = Some 0%Z /\
  new_Date Date_parse (DDate (Some 0%Z)) = Some 0%Z /\
  format CompiledMessage compile evaluate diff Date_parse G now
    (DPrim (JNum 0)) w = (Throw Err.invalid_date, w) /\
  format CompiledMessage compile evaluate diff Date_parse G now
    (DDate (Some 0%Z)) w = (Throw Err.invalid_date, w) /\
  class Err.invalid_date = InvalidDate.
Proof. repeat split. Qed.



(** C9.  The first access to the message of a unit builds it from the
    field data the catalog holds then and stores it in [_messages] under
    the unit; from then on, after any run of [format] calls and under any
    registries, a re-registered catalog among them, an access returns the
    stored message and neither compiles nor writes. *)
Theorem resolveMessage_memoized (CompiledMessage : Type)
    (compile : string -> string -> option CompiledMessage)
    (evaluate : CompiledMessage -> option Z -> string -> option string)
    (diff : Z -> Z -> gmap string Z) (Date_parse : string -> option Z)
    (G : Global) (units : jsval) (msg : CompiledMessage)
    (w w1 : World CompiledMessage) :
  _messages (this w) !! ToString units = None ->
  _resolveMessage CompiledMessage compile G units w = (Return msg, w1) ->
  (exists data fs field rt,
     __localeData__ G !! _locale (this w) = Some data /\
     fields data = Some fs /\
     fs !! ToString units = Some field /\
     relativeTime field = Some rt /\
     compile (synthesize rt) (_locale (this w)) = Some msg /\
     trace w1 = EvCompile (synthesize rt) (_locale (this w)) :: trace w) /\
  _messages (this w1) = <[ToString units := msg]> (_messages (this w)) /\
  forall calls G',
    let w2 := format_calls CompiledMessage compile evaluate diff Date_parse
                calls w1 in
    _resolveMessage CompiledMessage compile G' units w2 = (Return msg, w2).
Proof.
  intros Hnone Hrun.
  destruct (resolveMessage_built _ _ _ _ _ _ _ Hnone Hrun)
    as (Hbuilt & Hm & _ & _).
  split; [done|]. split; [done|].
  intros calls G' w2. apply resolveMessage_cached.
  apply (format_calls_preserves CompiledMessage compile evaluate diff
           Date_parse calls w1).
  rewrite Hm. apply lookup_insert_eq.
Qed.

(** The message of [day], built under the English data and read again
    after the catalog entry of the locale was replaced. *)
Lemma resolveMessage_memoized_witness :
  _messages (this (Sample.world JUndefined)) !! "day" = None /\
  Sample._resolveMessage Sample.G (JStr "day") (Sample.world JUndefined) =
  (Return Sample.day_message, Sample.world_day) /\
  Sample._resolveMessage Sample.G_blank (JStr "day") Sample.world_day =
  (Return Sample.day_message, Sample.world_day).
Proof.
  split; [reflexivity|]. split; [reflexivity|].
  exact (proj2 (proj2 (resolveMessage_memoized Sample.Msg Sample.compile
           Sample.evaluate Sample.diff Sample.Date_parse Sample.G
           (JStr "day") Sample.day_message (Sample.world JUndefined)
           Sample.world_day eq_refl eq_refl))
           [] Sample.G_blank).
Defined.

(** * Further properties *)

(** ** Registration *)

Lemma lower_char_hyphen (c : ascii) :
  Ascii.eqb (Str.lower_char c) "-" = Ascii.eqb c "-".
Proof. by destruct c as [[] [] [] [] [] [] [] []]. Qed.

Lemma split_toLowerCase (s : string) :
  Str.split "-" (Str.toLowerCase s) = map Str.toLowerCase (Str.split "-" s).
Proof.
  induction s as [|c s IH]; [done|].
  cbn [Str.toLowerCase Str.split]. rewrite lower_char_hyphen, IH.
  destruct (Ascii.eqb c "-"); [done|]. by destruct (Str.split "-" s).
Qed.

(** The key [__addLocaleData] computes, lower-casing first, is the key
    [_resolveLocale] computes, splitting first. *)
Lemma addLocaleData_key (tag : string) :
  Str.first (Str.split "-" (Str.toLowerCase tag)) = locale_key tag.
Proof.
  unfold locale_key. rewrite split_toLowerCase.
  by destruct (Str.split "-" tag).
Qed.

Lemma addLocaleData_Return (d : LocaleData) (G G' : Global) :
  __addLocaleData (Some d) G = Return G' ->
  locale d <> EmptyString /\ is_Some (fields d) /\
  G' = {| __availableLocales__ :=
            __availableLocales__ G ++ [locale_key (locale d)];
          __localeData__ :=
            <[locale_key (locale d) := d]> (__localeData__ G);
          defaultLocale := defaultLocale G;
          thresholds := thresholds G |}.
Proof.
  unfold __addLocaleData.
  destruct (String.eqb_spec (locale d) EmptyString) as [|Hne]; [done|].
  destruct (fields d) as [fs|]; [|done].
  rewrite addLocaleData_key. by intros [= <-].
Qed.


(** X2.  A registration that returns appends the key of the tag (its
    first segment, in lower case) to [__availableLocales__] and stores the
    data under that key: a lookup of the key finds the data as handed in,
    the data of every other key is as before, and [defaultLocale] and
    [thresholds] are not touched. *)
Theorem addLocaleData_registers (d : LocaleData) (G G' : Global) :
  __addLocaleData (Some d) G = Return G' ->
  __availableLocales__ G' =
  (__availableLocales__ G ++ [locale_key (locale d)])%list /\
  __localeData__ G' !! locale_key (locale d) = Some d /\
  (forall k, k <> locale_key (locale d) ->
             __localeData__ G' !! k = __localeData__ G !! k) /\
  defaultLocale G' = defaultLocale G /\
  thresholds G' = thresholds G.
Proof.
  intros (_ & _ & ->)%addLocaleData_Return. cbn.
  split; [done|]. split; [apply lookup_insert_eq|].
  split; [|done]. intros k Hk. by apply lookup_insert_ne.
Qed.

Lemma addLocaleData_registers_witness :
  __addLocaleData (Some Sample.en) initial_Global =
  Return Sample.G_registered /\
  __availableLocales__ Sample.G_registered = ["en"] /\
  __localeData__ Sample.G_registered !! "en" = Some Sample.en.
Proof.
  split; [reflexivity|].
  destruct (addLocaleData_registers Sample.en initial_Global
              Sample.G_registered eq_refl) as (H1 & H2 & _).
  split; [exact H1 | exact H2].
Defined.

(** X3.  Registering again under a key replaces the data of the key, with
    no merge, and appends the key to [__availableLocales__] a second
    time: the list keeps duplicates. *)
Theorem addLocaleData_last_write_wins (d1 d2 : LocaleData)
    (G G1 G2 : Global) :
  __addLocaleData (Some d1) G = Return G1 ->
  __addLocaleData (Some d2) G1 = Return G2 ->
  locale_key (locale d1) = locale_key (locale d2) ->
  __localeData__ G2 = <[locale_key (locale d2) := d2]> (__localeData__ G) /\
  __localeData__ G2 !! locale_key (locale d1) = Some d2 /\
  __availableLocales__ G2 =
  (__availableLocales__ G ++
   [locale_key (locale d1); locale_key (locale d1)])%list.
Proof.
  intros (_ & _ & ->)%addLocaleData_Return
         (_ & _ & ->)%addLocaleData_Return Hk. cbn.
  rewrite Hk, insert_insert_eq, <- app_assoc.
  split; [done|]. split; [apply lookup_insert_eq | done].
Qed.

Lemma addLocaleData_last_write_wins_witness :
  __addLocaleData (Some Sample.en) initial_Global =
  Return Sample.G_registered /\
  __addLocaleData (Some Sample.en_blank) Sample.G_registered =
  Return Sample.G_registered_twice /\
  __localeData__ Sample.G_registered_twice !! "en" = Some Sample.en_blank /\
  __availableLocales__ Sample.G_registered_twice = ["en"; "en"].
Proof.
  split; [reflexivity|]. split; [reflexivity|].
  destruct (addLocaleData_last_write_wins Sample.en Sample.en_blank
              initial_Global Sample.G_registered Sample.G_registered_twice
              eq_refl eq_refl eq_refl) as (_ & H2 & H3).
  split; [exact H2 | exact H3].
Defined.

(** X4.  What a registration is worth to resolution is decided by the
    structural test on the key: when the key passes it, every request that
    starts with a tag of that key resolves to the key from then on; when
    it fails, the data was stored all the same and every such request
    raises [MalformedLocaleTag]. *)
Theorem addLocaleData_then_resolve (d : LocaleData) (G G' : Global)
    (tag : string) (rest : list string) :
  __addLocaleData (Some d) G = Return G' ->
  locale_key tag = locale_key (locale d) ->
  (Str.test_az_2_3 (locale_key (locale d)) = true ->
   _resolveLocale G' (LArray (tag :: rest)) =
   Return (locale_key (locale d))) /\
  (Str.test_az_2_3 (locale_key (locale d)) = false ->
   __localeData__ G' !! locale_key tag = Some d /\
   _resolveLocale G' (LArray (tag :: rest)) =
   Throw (Err.not_structurally_valid (locale_key (locale d)))).
Proof.
  intros (_ & _ & ->)%addLocaleData_Return Hk.
  unfold _resolveLocale. cbn. rewrite Hk. split; intros ->; cbn.
  - rewrite bool_decide_eq_true_2; [done|].
    apply elem_of_app. right. by left.
  - split; [apply lookup_insert_eq | done].
Qed.

Lemma addLocaleData_then_resolve_witness :
  __addLocaleData (Some Sample.en) initial_Global =
  Return Sample.G_registered /\
  locale_key "EN-gb" = locale_key (locale Sample.en) /\
  _resolveLocale Sample.G_registered (LArray ["EN-gb"; "fr"]) = Return "en".
Proof.
  split; [reflexivity|]. split; [reflexivity|].
  exact (proj1 (addLocaleData_then_resolve Sample.en initial_Global
                  Sample.G_registered "EN-gb" ["fr"] eq_refl eq_refl)
           eq_refl).
Defined.

Lemma addLocaleData_catalog_ok (data : option LocaleData) (G G' : Global) :
  catalog_ok G -> __addLocaleData data G = Return G' -> catalog_ok G'.
Proof.
  intros Hok Hadd. destruct data as [d|]; [|done].
  apply addLocaleData_Return in Hadd as (_ & [fs Hfs] & ->).
  intros k. cbn. intros [Hk | ->%list_elem_of_singleton]%elem_of_app.
  - destruct (decide (k = locale_key (locale d))) as [->|Hne].
    + exists d, fs. by rewrite lookup_insert_eq.
    + rewrite lookup_insert_ne by done. by apply Hok.
  - exists d, fs. by rewrite lookup_insert_eq.
Qed.

Lemma resolveLocale_loop_Return (av locales rest : list string) (k : string) :
  resolveLocale_loop av locales rest = Return k ->
  exists tag, tag ∈ rest /\ locale_key tag = k /\
              Str.test_az_2_3 k = true /\ k ∈ av.
Proof.
  induction rest as [|tag rest IH]; [done|]. simpl.
  destruct (Str.test_az_2_3 (locale_key tag)) eqn:Hv; [|done]. simpl.
  case_bool_decide as Hr.
  - intros [= <-]. exists tag. repeat split; [left | done..].
  - intros (t & Ht & ?)%IH. exists t. split; [by right | done].
Qed.

Lemma resolveLocale_Return_registered (G : Global) (locales : locales_arg)
    (k : string) :
  _resolveLocale G locales = Return k ->
  k ∈ __availableLocales__ G /\ Str.test_az_2_3 k = true.
Proof.
  unfold _resolveLocale.
  destruct (if negb (locales_truthy locales) then defaultLocale G
            else locales) as [[]|l]; try done.
  all: by intros (t & _ & _ & ? & ?)%resolveLocale_loop_Return.
Qed.

(** X5.  The registries keep the two tables in step: they start so, and
    through any run of registration calls, failed ones among them, every
    key of [__availableLocales__] has its data, with fields, in
    [__localeData__]; an instance constructed under such registries has
    the data of its locale at hand. *)
Theorem catalog_ok_invariant (CompiledMessage : Type)
    (datas : list (option LocaleData)) (G : Global) :
  catalog_ok G ->
  catalog_ok (addLocaleData_all datas G) /\
  forall locales units (inst : Instance CompiledMessage),
    RelativeFormat CompiledMessage (addLocaleData_all datas G) locales units
    = Return inst ->
    exists d fs,
      __localeData__ (addLocaleData_all datas G) !! _locale inst = Some d /\
      fields d = Some fs.
Proof.
  intros Hok.
  assert (Hall : catalog_ok (addLocaleData_all datas G)).
  { revert G Hok. induction datas as [|data datas IH]; intros G Hok; [done|].
    cbn [addLocaleData_all]. apply IH.
    destruct (__addLocaleData data G) eqn:Hadd; [|done].
    by eapply addLocaleData_catalog_ok. }
  split; [done|]. intros locales units inst Hnew. apply Hall.
  apply constructor_units in Hnew as (_ & _ & Hl).
  by apply resolveLocale_Return_registered in Hl as [? _].
Qed.

Lemma catalog_ok_invariant_witness :
  catalog_ok initial_Global /\
  catalog_ok
    (addLocaleData_all [Some Sample.en; None; Some Sample.en_blank]
       initial_Global).
Proof.
  assert (H0 : catalog_ok initial_Global).
  { intros k Hk. by apply elem_of_nil in Hk. }
  split; [exact H0|].
  exact (proj1 (catalog_ok_invariant Sample.Msg
                  [Some Sample.en; None; Some Sample.en_blank]
                  initial_Global H0)).
Defined.

Lemma resolveLocale_loop_mono (av av' locales rest : list string)
    (k : string) :
  (forall x, x ∈ av -> x ∈ av') ->
  resolveLocale_loop av locales rest = Return k ->
  exists k', resolveLocale_loop av' locales rest = Return k'.
Proof.
  intros Hsub. induction rest as [|tag rest IH]; [done|]. simpl.
  destruct (Str.test_az_2_3 (locale_key tag)); [|done]. simpl.
  case_bool_decide as Hr.
  - intros _. rewrite bool_decide_eq_true_2 by auto. by eexists.
  - intros H. case_bool_decide; [by eexists | by apply IH].
Qed.

(** X6.  A registration never turns a request that resolves into one
    that fails: what resolved before still resolves, be it to an earlier
    candidate of the request. *)
Theorem addLocaleData_keeps_resolving (data : option LocaleData)
    (G G' : Global) (locales : locales_arg) (k : string) :
  __addLocaleData data G = Return G' ->
  _resolveLocale G locales = Return k ->
  exists k', _resolveLocale G' locales = Return k'.
Proof.
  intros Hadd. destruct data as [d|]; [|done].
  apply addLocaleData_Return in Hadd as (_ & _ & ->).
  unfold _resolveLocale. cbn [__availableLocales__ defaultLocale].
  destruct (if negb (locales_truthy locales) then defaultLocale G
            else locales) as [[]|l]; try done.
  all: apply resolveLocale_loop_mono; intros x Hx;
    apply elem_of_app; by left.
Qed.

Lemma addLocaleData_keeps_resolving_witness :
  __addLocaleData (Some Sample.english) Sample.G =
  Return (addLocaleData_all [Some Sample.english] Sample.G) /\
  _resolveLocale Sample.G (LArray ["english"; "en"]) = Return "en" /\
  exists k',
    _resolveLocale (addLocaleData_all [Some Sample.english] Sample.G)
      (LArray ["english"; "en"]) = Return k'.
Proof.
  split; [reflexivity|]. split; [reflexivity|].
  exact (addLocaleData_keeps_resolving (Some Sample.english) Sample.G
           (addLocaleData_all [Some Sample.english] Sample.G)
           (LArray ["english"; "en"]) "en" eq_refl eq_refl).
Defined.

(** ** Resolution *)

Lemma lower_char_idemp (c : ascii) :
  Str.lower_char (Str.lower_char c) = Str.lower_char c.
Proof. by destruct c as [[] [] [] [] [] [] [] []]. Qed.

Lemma toLowerCase_idemp (s : string) :
  Str.toLowerCase (Str.toLowerCase s) = Str.toLowerCase s.
Proof.
  induction s as [|c s IH]; [done|]. simpl. by rewrite lower_char_idemp, IH.
Qed.

Lemma first_segment_no_sep (sep : ascii) (s : string) :
  Forall (fun c => c <> sep)
    (list_ascii_of_string (Str.first (Str.split sep s))).
Proof.
  induction s as [|c s IH]; simpl; [constructor|].
  destruct (Ascii.eqb_spec c sep) as [->|Hne]; [constructor|].
  destruct (Str.split sep s); simpl in *; by constructor.
Qed.

Lemma toLowerCase_no_hyphen (s : string) :
  Forall (fun c => c <> "-"%char) (list_ascii_of_string s) ->
  Forall (fun c => c <> "-"%char) (list_ascii_of_string (Str.toLowerCase s)).
Proof.
  induction s as [|c s IH]; simpl; [done|].
  intros [Hc Hs]%Forall_cons. constructor; [|by apply IH].
  intros He. apply Hc. apply Ascii.eqb_eq.
  rewrite <- lower_char_hyphen. by apply Ascii.eqb_eq.
Qed.

(** A key is its own key. *)
Lemma locale_key_idemp (tag : string) :
  locale_key (locale_key tag) = locale_key tag.
Proof.
  unfold locale_key at 1.
  rewrite split_first_no_sep.
  - unfold locale_key. apply toLowerCase_idemp.
  - apply toLowerCase_no_hyphen, first_segment_no_sep.
Qed.

(** X7.  What resolution returns is a registered key that passes the
    structural test and is in normal form, the key of itself: handed back
    as the request it resolves to itself.  For an array it is the key of
    one of the tags of the array. *)
Theorem resolveLocale_returns_registered_key (G : Global)
    (locales : locales_arg) (k : string) :
  _resolveLocale G locales = Return k ->
  k ∈ __availableLocales__ G /\
  Str.test_az_2_3 k = true /\
  locale_key k = k /\
  _resolveLocale G (LPrim (JStr k)) = Return k /\
  (forall l, locales = LArray l ->
             exists tag, tag ∈ l /\ locale_key tag = k).
Proof.
  intros Hres.
  destruct (resolveLocale_Return_registered _ _ _ Hres) as [Hin Htest].
  assert (Hkey : locale_key k = k).
  { revert Hres. unfold _resolveLocale.
    destruct (if negb (locales_truthy locales) then defaultLocale G
              else locales) as [[]|l]; try done.
    all: intros (t & _ & <- & _)%resolveLocale_loop_Return;
      apply locale_key_idemp. }
  split; [done|]. split; [done|]. split; [done|]. split.
  - unfold _resolveLocale. cbn.
    destruct (String.eqb_spec k EmptyString) as [->|_]; [done|]. cbn.
    rewrite Hkey, Htest. cbn. by rewrite bool_decide_eq_true_2.
  - intros l ->. revert Hres. unfold _resolveLocale. cbn.
    intros (t & Ht & Hk & _)%resolveLocale_loop_Return. by exists t.
Qed.

Lemma resolveLocale_returns_registered_key_witness :
  _resolveLocale Sample.G (LArray ["fr-CA"; "EN-us"]) = Return "en" /\
  locale_key "en" = "en" /\
  _resolveLocale Sample.G (LPrim (JStr "en")) = Return "en".
Proof.
  split; [reflexivity|].
  destruct (resolveLocale_returns_registered_key Sample.G
              (LArray ["fr-CA"; "EN-us"]) "en" eq_refl)
    as (_ & _ & H3 & H4 & _).
  split; [exact H3 | exact H4].
Defined.

Lemma resolveLocale_loop_unsupported (G : Global) (locales rest : list string)
    (e : error) :
  resolveLocale_loop (__availableLocales__ G) locales rest = Throw e ->
  class e = UnsupportedLocale ->
  Forall (skipped G) rest.
Proof.
  induction rest as [|tag rest IH]; [constructor|]. simpl.
  destruct (Str.test_az_2_3 (locale_key tag)) eqn:Hv; simpl.
  - case_bool_decide as Hr; [done|]. intros He Hc.
    constructor; [done | by apply IH].
  - by intros [= <-].
Qed.

(** X8.  A request given as an array fails with [UnsupportedLocale]
    exactly when every tag of it is structurally valid and not registered,
    the empty array included; the message then names the whole array. *)
Theorem resolveLocale_unsupported_iff (G : Global) (l : list string) :
  ((exists e, _resolveLocale G (LArray l) = Throw e /\
              class e = UnsupportedLocale) <->
   Forall (skipped G) l) /\
  (Forall (skipped G) l ->
   _resolveLocale G (LArray l) = Throw (Err.no_locale_data_for l) /\
   message (Err.no_locale_data_for l) =
   "No locale data has been added to IntlRelativeFormat for: " ++
   Str.join ", " l).
Proof.
  assert (Hthrow : Forall (skipped G) l ->
            _resolveLocale G (LArray l) = Throw (Err.no_locale_data_for l)).
  { intros Hall. unfold _resolveLocale. cbn [locales_truthy negb].
    transitivity (resolveLocale_loop (__availableLocales__ G) l (l ++ [])).
    - by rewrite app_nil_r.
    - by rewrite resolveLocale_loop_skip. }
  split; [split|].
  - intros (e & He & Hc). unfold _resolveLocale in He.
    cbn [locales_truthy negb] in He.
    by eapply resolveLocale_loop_unsupported.
  - intros Hall. eexists. split; [by apply Hthrow | done].
  - intros Hall. split; [by apply Hthrow | done].
Qed.


Lemma resolveLocale_loop_keys (av locales locales' rest rest' : list string)
    (k : string) :
  map locale_key rest = map locale_key rest' ->
  resolveLocale_loop av locales rest = Return k ->
  resolveLocale_loop av locales' rest' = Return k.
Proof.
  revert rest'. induction rest as [|tag rest IH]; intros [|tag' rest'];
    try done.
  intros [= Hk Hrest]. simpl. rewrite <- Hk.
  destruct (Str.test_az_2_3 (locale_key tag)); [|done]. simpl.
  case_bool_decide; [done|]. by apply IH.
Qed.

(** X10.  Whether and to what an array resolves depends on the keys of
    its tags only: case and everything after the first hyphen play no
    part. *)
Theorem resolveLocale_depends_on_keys (G : Global) (l l' : list string)
    (k : string) :
  map locale_key l = map locale_key l' ->
  _resolveLocale G (LArray l) = Return k <->
  _resolveLocale G (LArray l') = Return k.
Proof.
  intros Hk. unfold _resolveLocale. cbn [locales_truthy negb].
  split; by apply resolveLocale_loop_keys.
Qed.

Lemma resolveLocale_depends_on_keys_witness :
  map locale_key ["FR"; "EN-us-x-private"] = map locale_key ["fr-CA"; "en"] /\
  _resolveLocale Sample.G (LArray ["FR"; "EN-us-x-private"]) = Return "en".
Proof.
  split; [reflexivity|].
  exact (proj2 (resolveLocale_depends_on_keys Sample.G
                  ["FR"; "EN-us-x-private"] ["fr-CA"; "en"] "en" eq_refl)
           eq_refl).
Defined.

(** ** Unit selection, further *)

Lemma PRIORITY_split_not_last (u : string) :
  u ∈ PRIORITY -> u <> "year" ->
  exists pre post, PRIORITY = (pre ++ u :: post)%list /\ post <> [].
Proof.
  intros (pre & post & HP)%list_elem_of_split Hne.
  exists pre, post. split; [done|]. intros ->.
  assert (last PRIORITY = Some u) as Hl by (rewrite HP; apply last_snoc).
  cbn in Hl. congruence.
Qed.

Lemma selectUnits_elem (diffReport thresholds : gmap string Z) :
  exists u, u ∈ PRIORITY /\ _selectUnits diffReport thresholds = JStr u.
Proof. by apply selectUnits_loop_elem. Qed.

(** X11.  Whatever the diff report and the threshold table hold,
    [_selectUnits] answers with one of the six units, never with
    [undefined]; a unit other than [year] is never the answer when it has
    no diff, no threshold, or a threshold that is not positive; and with
    an empty table or an empty report the answer is [year]. *)
Theorem selectUnits_in_PRIORITY (diffReport thresholds : gmap string Z) :
  (exists u, u ∈ PRIORITY /\ _selectUnits diffReport thresholds = JStr u) /\
  (forall u, u <> "year" ->
     diffReport !! u = None \/ thresholds !! u = None \/
     (exists t, thresholds !! u = Some t /\ (t <= 0)%Z) ->
     _selectUnits diffReport thresholds <> JStr u) /\
  _selectUnits diffReport ∅ = JStr "year" /\
  _selectUnits ∅ thresholds = JStr "year".
Proof.
  split; [apply selectUnits_elem|]. split; [|split].
  - intros u Hne Hu.
    assert (Hf : fails diffReport thresholds u).
    { unfold fails, below_threshold.
      destruct Hu as [-> | [-> | (t & -> & Ht)]]; try done.
      - by destruct (diffReport !! u).
      - destruct (diffReport !! u) as [d|]; [|done].
        apply Z.ltb_ge. lia. }
    destruct (decide (u ∈ PRIORITY)) as [Hin|Hnin].
    + destruct (PRIORITY_split_not_last u Hin Hne) as (pre & post & HP & Hp).
      unfold _selectUnits. rewrite HP.
      apply selectUnits_loop_skips; [|done..]. rewrite <- HP.
      apply NoDup_PRIORITY.
    + destruct (selectUnits_elem diffReport thresholds) as (w & Hw & ->).
      intros [= ->]. done.
  - unfold _selectUnits. rewrite selectUnits_loop_none; [done|].
    apply Forall_forall. intros u _. unfold fails, below_threshold.
    rewrite lookup_empty. by destruct (diffReport !! u).
  - unfold _selectUnits. rewrite selectUnits_loop_none; [done|].
    apply Forall_forall. intros u _. unfold fails, below_threshold.
    by rewrite lookup_empty.
Qed.

Lemma below_threshold_opp (diffReport thresholds : gmap string Z) u :
  below_threshold (Z.opp <$> diffReport) thresholds u =
  below_threshold diffReport thresholds u.
Proof.
  unfold below_threshold. rewrite lookup_fmap.
  destruct (diffReport !! u) as [d|]; [|done]. cbn. by rewrite Z.abs_opp.
Qed.

(** X12.  Selection looks at magnitudes only: a diff report and its
    mirror image, the same distance on the other side of now, select the
    same unit. *)
Theorem selectUnits_ignores_direction (diffReport thresholds : gmap string Z) :
  _selectUnits (Z.opp <$> diffReport) thresholds =
  _selectUnits diffReport thresholds.
Proof.
  unfold _selectUnits. generalize JUndefined.
  induction PRIORITY as [|u l IH]; intros v; [done|]. simpl.
  rewrite below_threshold_opp. by rewrite IH.
Qed.

Lemma below_threshold_mono (diffReport th th' : gmap string Z) u :
  thresholds_le th th' ->
  below_threshold diffReport th u = true ->
  below_threshold diffReport th' u = true.
Proof.
  intros Hle (d & t & Hd & Ht & Hlt)%below_threshold_spec.
  destruct (Hle u t Ht) as (t' & Ht' & Htt').
  apply below_threshold_spec. exists d, t'. repeat split; [done..|lia].
Qed.

Lemma selectUnits_loop_mono (diffReport th th' : gmap string Z)
    (pre : list string) (u : string) (post : list string) (v : jsval) :
  thresholds_le th th' ->
  NoDup (pre ++ u :: post) ->
  selectUnits_loop diffReport th (pre ++ u :: post) v = JStr u ->
  exists w, w ∈ (pre ++ [u])%list /\
            selectUnits_loop diffReport th' (pre ++ u :: post) v = JStr w.
Proof.
  intros Hle. revert v. induction pre as [|x pre IH]; intros v Hnd; simpl.
  - apply NoDup_cons in Hnd as [Hnin _].
    destruct (below_threshold diffReport th' u) eqn:Hu'.
    + intros _. exists u. split; [left | done].
    + destruct (below_threshold diffReport th u) eqn:Hu.
      { by rewrite (below_threshold_mono _ _ _ _ Hle Hu) in Hu'. }
      destruct post as [|y post].
      * intros _. exists u. split; [left | done].
      * destruct (selectUnits_loop_elem diffReport th (y :: post) (JStr u))
          as (w & Hw & ->); [done|].
        intros [= ->]. done.
  - apply NoDup_cons in Hnd as [Hnin Hnd].
    destruct (below_threshold diffReport th x) eqn:Hx.
    + intros [= ->]. exfalso. apply Hnin, elem_of_app. right. left.
    + intros Hrun. destruct (below_threshold diffReport th' x).
      * exists x. split; [left | done].
      * destruct (IH (JStr x) Hnd Hrun) as (w & Hw & ->).
        exists w. split; [by right | done].
Qed.

(** X13.  Raising thresholds never makes the answer coarser: under a
    table that is entry by entry at least the old one, the unit selected
    is the old one or a finer one. *)
Theorem selectUnits_monotone (diffReport th th' : gmap string Z)
    (pre : list string) (u : string) (post : list string) :
  thresholds_le th th' ->
  PRIORITY = (pre ++ u :: post)%list ->
  _selectUnits diffReport th = JStr u ->
  exists w, w ∈ (pre ++ [u])%list /\ _selectUnits diffReport th' = JStr w.
Proof.
  intros Hle HP. unfold _selectUnits. rewrite HP.
  apply selectUnits_loop_mono; [done|]. rewrite <- HP. apply NoDup_PRIORITY.
Qed.

Lemma selectUnits_monotone_witness :
  thresholds_le default_thresholds (<["second" := 120%Z]> default_thresholds) /\
  _selectUnits (Sample.diff 0 90000) default_thresholds = JStr "minute" /\
  exists w, w ∈ ["second"; "minute"] /\
    _selectUnits (Sample.diff 0 90000)
      (<["second" := 120%Z]> default_thresholds) = JStr w.
Proof.
  assert (Hle : thresholds_le default_thresholds
                  (<["second" := 120%Z]> default_thresholds)).
  { intros u t Hu. destruct (decide (u = "second")) as [->|Hne].
    - rewrite lookup_insert_eq. exists 120%Z. split; [done|].
      vm_compute in Hu. injection Hu as <-. lia.
    - rewrite lookup_insert_ne by done. exists t. split; [done | lia]. }
  split; [exact Hle|]. split; [reflexivity|].
  exact (selectUnits_monotone (Sample.diff 0 90000) default_thresholds
           (<["second" := 120%Z]> default_thresholds)
           ["second"] "minute" ["hour"; "day"; "month"; "year"]
           Hle eq_refl eq_refl).
Defined.

(** ** Validation and construction, further *)


(** X15.  The constructor resolves the locale before it looks at the
    units, so a locale that does not resolve decides the error whatever
    the units are; it returns an instance exactly when the locale
    resolves and the units are falsy or a unit of [PRIORITY]; and the
    instance it returns has the resolved key, which is registered, as its
    locale and an empty message cache. *)
Theorem constructor_returns_iff (CompiledMessage : Type) (G : Global)
    (locales : locales_arg) (units : jsval) :
  (forall e, _resolveLocale G locales = Throw e ->
             RelativeFormat CompiledMessage G locales units = Throw e) /\
  ((exists inst, RelativeFormat CompiledMessage G locales units = Return inst)
   <->
   (exists loc, _resolveLocale G locales = Return loc) /\
   (truthy units = false \/ in_PRIORITY units = true)) /\
  (forall inst,
     RelativeFormat CompiledMessage G locales units = Return inst ->
     _resolveLocale G locales = Return (_locale inst) /\
     _locale inst ∈ __availableLocales__ G /\
     _messages inst = ∅ /\
     _units inst = (if in_PRIORITY units then units else JUndefined)).
Proof.
  split; [|split].
  - intros e He. unfold RelativeFormat. by rewrite He.
  - split.
    + intros [inst Hnew].
      destruct (constructor_units _ _ _ _ _ Hnew) as (_ & _ & Hl).
      split; [by eexists|].
      destruct (truthy units) eqn:Ht; [right | by left].
      revert Hnew. unfold RelativeFormat. rewrite Hl, Ht.
      cbn [mbind result_bind].
      destruct (_isValidUnits units) as [b|] eqn:Hv; [|done].
      by apply isValidUnits_true in Hv as [_ ?].
    + intros [[loc Hl] [Ht | Hin]].
      * eexists. rewrite constructor_falsy by done. by rewrite Hl.
      * eexists. by apply constructor_pins.
  - intros inst Hnew.
    destruct (constructor_units _ _ _ _ _ Hnew) as (Hu & Hm & Hl).
    split; [done|]. split; [|done].
    by apply resolveLocale_Return_registered in Hl as [? _].
Qed.

(** ** The methods of an instance, further *)

Section MethodsFurther.

Variable CompiledMessage : Type.
Variable compile : string -> string -> option CompiledMessage.
Variable evaluate : CompiledMessage -> option Z -> string -> option string.
Variable diff : Z -> Z -> gmap string Z.
Variable Date_parse : string -> option Z.

Local Abbreviation World' := (World CompiledMessage).
Local Abbreviation format' :=
  (format CompiledMessage compile evaluate diff Date_parse).
Local Abbreviation format_calls' :=
  (format_calls CompiledMessage compile evaluate diff Date_parse).

Ltac unfold_methods :=
  unfold format, _format, _resolveMessage, _resolveRelativeUnits,
    lookup_field, bind, or_throw, ret, throw, emit, set_messages,
    get_this in *.

Ltac run := repeat (case_match; simplify_eq/=; try done).

(** The unit a call works in. *)
Lemma units_in_use_in_PRIORITY (w : World') (selected : gmap string Z)
    (th : gmap string Z) :
  units_wellformed w ->
  ToString (js_or (_units (this w)) (_selectUnits selected th)) ∈ PRIORITY.
Proof.
  intros [Hf | Hin]; unfold js_or.
  - rewrite Hf. by destruct (selectUnits_elem selected th) as (u & Hu & ->).
  - destruct (_units (this w)) as [| | | | |s] eqn:Hu; try done.
    destruct (plural_not_in_PRIORITY s Hin) as [_ ->].
    by apply bool_decide_eq_true in Hin.
Qed.

(** X16.  One [format] call on an accepted date makes at most one
    compile call and at most one evaluate call, the compile first.  When
    it evaluates, the message is the one the cache holds for the unit in
    use after the call, and the arguments are the magnitude of the diff in
    that unit and its direction; when it compiles, the unit had no cached
    message before. *)
Theorem format_engine_calls (G : Global) (now : Z) (date : date_arg)
    (t : Z) (w : World') :
  new_Date Date_parse date = Some t ->
  let units :=
    js_or (_units (this w)) (_selectUnits (diff now t) (thresholds G)) in
  let d := diff now t !! ToString units in
  let w' := (format' G now date w).2 in
  (trace w' = trace w /\ this w' = this w) \/
  (exists message,
     trace w' = EvCompile message (_locale (this w)) :: trace w /\
     this w' = this w /\
     _messages (this w) !! ToString units = None /\
     compile message (_locale (this w)) = None) \/
  (exists msg,
     trace w' = EvFormat msg (Z.abs <$> d) (when_of d) :: trace w /\
     this w' = this w /\
     _messages (this w) !! ToString units = Some msg) \/
  (exists msg message,
     trace w' =
     EvFormat msg (Z.abs <$> d) (when_of d)
       :: EvCompile message (_locale (this w)) :: trace w /\
     _messages (this w) !! ToString units = None /\
     compile message (_locale (this w)) = Some msg /\
     _messages (this w') = <[ToString units := msg]> (_messages (this w))).
Proof.
  intros Hdate units d w'. subst units d w'.
  unfold_methods. rewrite Hdate.
  run; eauto 10.
Qed.

(** X17.  A [format] call that throws throws [InvalidDate], the
    engine's [TypeError] or a failure of the message engine, never an
    error of locale resolution or of unit validation; and unless the
    message engine failed, the call has written nothing: the instance, its
    cache and the trace are as before. *)
Theorem format_failure_writes_nothing (G : Global) (now : Z)
    (date : date_arg) (w w' : World') (e : error) :
  format' G now date w = (Throw e, w') ->
  (class e = InvalidDate \/ class e = NativeTypeError \/
   class e = CollaboratorError) /\
  (class e <> CollaboratorError -> w' = w).
Proof.
  unfold_methods. destruct w as [[loc msgs us] tr].
  run; intros [= <- <-]; split; auto; try done.
Qed.

(** X18.  Locale data is looked into at use only: on an accepted date,
    when the registries hold no data for the locale of the instance, or
    data without fields, or fields without an entry for the unit in use,
    [format] ends in the engine's [TypeError] and has written nothing. *)
Theorem format_missing_field (G : Global) (now : Z) (date : date_arg)
    (t : Z) (w : World') :
  new_Date Date_parse date = Some t -> t <> 0%Z ->
  (__localeData__ G !! _locale (this w) = None \/
   (exists d, __localeData__ G !! _locale (this w) = Some d /\
              fields d = None) \/
   (exists d fs,
      __localeData__ G !! _locale (this w) = Some d /\
      fields d = Some fs /\
      fs !! ToString (js_or (_units (this w))
                        (_selectUnits (diff now t) (thresholds G))) = None)) ->
  format' G now date w = (Throw Err.type_error, w).
Proof.
  intros Hdate Ht Hmiss. unfold_methods. rewrite Hdate.
  assert (date_rejected (Some t) = false) as ->.
  { simpl. by rewrite negb_false_iff, negb_true_iff, Z.eqb_neq. }
  destruct Hmiss as [-> | [(d & -> & ->) | (d & fs & -> & -> & ->)]]; done.
Qed.

End MethodsFurther.

Lemma format_engine_calls_witness :
  new_Date Sample.Date_parse (DPrim (JNum 970000)) = Some 970000%Z /\
  trace (Sample.format Sample.G 1000000 (DPrim (JNum 970000))
           (Sample.world JUndefined)).2 =
  [EvFormat (synthesize (Sample.en_relativeTime "second"), "en")
     (Some 30%Z) "past";
   EvCompile (synthesize (Sample.en_relativeTime "second")) "en"].
Proof.
  split; [reflexivity|].
  destruct (format_engine_calls Sample.Msg Sample.compile Sample.evaluate
              Sample.diff Sample.Date_parse Sample.G 1000000
              (DPrim (JNum 970000)) 970000 (Sample.world JUndefined) eq_refl)
    as [[H _] | [(p & H & _) | [(m & H & _) | (m & p & H & _)]]];
    reflexivity.
Defined.

Lemma format_failure_writes_nothing_witness :
  Sample.format Sample.G_day_only 1000000 (DPrim (JNum 970000))
    (Sample.world JUndefined) =
  (Throw Err.type_error, Sample.world JUndefined) /\
  (class Err.type_error = InvalidDate \/
   class Err.type_error = NativeTypeError \/
   class Err.type_error = CollaboratorError).
Proof.
  split; [reflexivity|].
  exact (proj1 (format_failure_writes_nothing Sample.Msg Sample.compile
                  Sample.evaluate Sample.diff Sample.Date_parse
                  Sample.G_day_only 1000000 (DPrim (JNum 970000))
                  (Sample.world JUndefined) (Sample.world JUndefined)
                  Err.type_error eq_refl)).
Defined.

Lemma format_missing_field_witness :
  Sample.format Sample.G_day_only 1000000 (DPrim (JNum 970000))
    (Sample.world JUndefined) =
  (Throw Err.type_error, Sample.world JUndefined).
Proof.
  apply (format_missing_field Sample.Msg Sample.compile Sample.evaluate
           Sample.diff Sample.Date_parse Sample.G_day_only 1000000
           (DPrim (JNum 970000)) 970000 (Sample.world JUndefined)).
  - reflexivity.
  - discriminate.
  - right. right. eexists _, _. repeat split; reflexivity.
Defined.

Section MethodsInvariants.

Variable CompiledMessage : Type.
Variable compile : string -> string -> option CompiledMessage.
Variable evaluate : CompiledMessage -> option Z -> string -> option string.
Variable diff : Z -> Z -> gmap string Z.
Variable Date_parse : string -> option Z.

Local Abbreviation World' := (World CompiledMessage).
Local Abbreviation format' :=
  (format CompiledMessage compile evaluate diff Date_parse).
Local Abbreviation format_calls' :=
  (format_calls CompiledMessage compile evaluate diff Date_parse).

Ltac unfold_methods :=
  unfold format, _format, _resolveMessage, _resolveRelativeUnits,
    lookup_field, bind, or_throw, ret, throw, emit, set_messages,
    get_this in *.

Ltac run := repeat (case_match; simplify_eq/=; try done).

Local Abbreviation resolveMessage' :=
  (_resolveMessage CompiledMessage compile).
Local Abbreviation resolveRelativeUnits' :=
  (_resolveRelativeUnits CompiledMessage).

(** [_resolveRelativeUnits] writes nothing and reads of the instance its
    locale only. *)
Lemma resolveRelativeUnits_reads_locale G d units (w w0 : World') r :
  resolveRelativeUnits' G d units w = (r, w0) ->
  w0 = w /\
  forall w2 : World', _locale (this w2) = _locale (this w) ->
                      resolveRelativeUnits' G d units w2 = (r, w2).
Proof.
  unfold_methods. intros H. split.
  - revert H. run; by intros [= <- <-].
  - intros w2 ->. revert H. run; by intros [= <- <-].
Qed.

(** What an access to the message of a unit leaves behind: on a return
    the message sits in the cache under the unit; on a throw the instance
    is as before and an access from there throws the same. *)
Lemma resolveMessage_result G units (w w1 : World') r :
  resolveMessage' G units w = (r, w1) ->
  _locale (this w1) = _locale (this w) /\
  _units (this w1) = _units (this w) /\
  match r with
  | Return msg => _messages (this w1) !! ToString units = Some msg
  | Throw e =>
      this w1 = this w /\
      forall tr, exists tr',
        resolveMessage' G units {| this := this w; trace := tr |} =
        (Throw e, {| this := this w; trace := tr' |})
  end.
Proof.
  destruct w as [[loc msgs us] tr0]. unfold_methods.
  cbn [this trace _locale _messages _units].
  destruct (msgs !! ToString units) as [m|] eqn:Hm.
  { intros [= <- <-]. by cbn. }
  destruct (__localeData__ G !! loc) as [data|] eqn:Hl;
    [|intros [= <- <-]; cbn; repeat split; intros tr; by eexists].
  destruct (fields data) as [fs|] eqn:Hfs;
    [|intros [= <- <-]; cbn; repeat split; intros tr; by eexists].
  destruct (fs !! ToString units) as [field|] eqn:Hf;
    [|intros [= <- <-]; cbn; repeat split; intros tr; by eexists].
  destruct (relativeTime field) as [rt|] eqn:Hrt;
    [|intros [= <- <-]; cbn; repeat split; intros tr; by eexists].
  destruct (compile (synthesize rt) loc) as [m|] eqn:Hc;
    intros [= <- <-]; cbn.
  - repeat split. apply lookup_insert_eq.
  - repeat split. intros tr. by eexists.
Qed.

Ltac finish_call :=
  eexists; split; [reflexivity|]; cbn; split; [done|];
  intros ? ?; first [done | by left | right; by eexists _, _, _].

Lemma format_again (G : Global) (now : Z) (date : date_arg)
    (w w1 : World') (r1 : result string) :
  format' G now date w = (r1, w1) ->
  exists w2,
    format' G now date w1 = (r1, w2) /\
    this w2 = this w1 /\
    (forall s, r1 = Return s ->
       trace w2 = trace w1 \/
       exists msg n when, trace w2 = EvFormat msg n when :: trace w1).
Proof.
  unfold format, _format.
  destruct (new_Date Date_parse date) as [t|] eqn:Hd;
    [|intros [= <- <-]; finish_call].
  destruct (date_rejected (Some t)) eqn:Hr; [intros [= <- <-]; finish_call|].
  unfold bind at 1. unfold get_this at 1.
  set (units := js_or (_units (this w))
                  (_selectUnits (diff now t) (thresholds G))).
  set (d := diff now t !! ToString units).
  unfold bind at 1.
  destruct (resolveRelativeUnits' G d units w) as [rel w0] eqn:Hrel.
  apply resolveRelativeUnits_reads_locale in Hrel as [-> Hrel].
  intros Hfirst.
  assert (Hsecond : forall w2 : World',
            _locale (this w2) = _locale (this w) ->
            _units (this w2) = _units (this w) ->
            bind CompiledMessage (get_this CompiledMessage)
              (fun self =>
                 bind CompiledMessage
                   (resolveRelativeUnits' G
                      (diff now t !! ToString
                         (js_or (_units self)
                            (_selectUnits (diff now t) (thresholds G))))
                      (js_or (_units self)
                         (_selectUnits (diff now t) (thresholds G))))
                   (fun relativeUnits =>
                      if phrase_truthy relativeUnits
                      then ret CompiledMessage (default EmptyString relativeUnits)
                      else
                        bind CompiledMessage (resolveMessage' G
                          (js_or (_units self)
                             (_selectUnits (diff now t) (thresholds G))))
                          (fun msg =>
                             bind CompiledMessage
                               (emit CompiledMessage
                                  (EvFormat msg
                                     (Z.abs <$> diff now t !! ToString
                                        (js_or (_units self)
                                           (_selectUnits (diff now t)
                                              (thresholds G))))
                                     (when_of (diff now t !! ToString
                                        (js_or (_units self)
                                           (_selectUnits (diff now t)
                                              (thresholds G)))))))
                               (fun _ =>
                                  or_throw CompiledMessage Err.collaborator
                                    (evaluate msg
                                       (Z.abs <$> diff now t !! ToString
                                          (js_or (_units self)
                                             (_selectUnits (diff now t)
                                                (thresholds G))))
                                       (when_of (diff now t !! ToString
                                          (js_or (_units self)
                                             (_selectUnits (diff now t)
                                                (thresholds G)))))))))) w2 =
            match rel with
            | Return a =>
                (if phrase_truthy a
                 then ret CompiledMessage (default EmptyString a)
                 else
                   bind CompiledMessage (resolveMessage' G units)
                     (fun msg =>
                        bind CompiledMessage
                          (emit CompiledMessage
                             (EvFormat msg (Z.abs <$> d) (when_of d)))
                          (fun _ =>
                             or_throw CompiledMessage Err.collaborator
                               (evaluate msg (Z.abs <$> d) (when_of d))))) w2
            | Throw e => (Throw e, w2)
            end).
  { intros w2 Hl2 Hu2. unfold bind at 1. unfold get_this at 1.
    rewrite Hu2. fold units. fold d. unfold bind at 1.
    by rewrite (Hrel w2 Hl2). }
  destruct rel as [a|e].
  2:{ injection Hfirst as <- <-. rewrite Hsecond by done. finish_call. }
  destruct (phrase_truthy a) eqn:Hp.
  { injection Hfirst as <- <-. rewrite Hsecond by done. finish_call. }
  unfold bind at 1 in Hfirst.
  destruct (resolveMessage' G units w) as [rm wm] eqn:Hm.
  destruct (resolveMessage_result _ _ _ _ _ Hm) as (Hl & Hu & Hres).
  destruct rm as [msg|e].
  - unfold bind, emit, or_throw, ret, throw in Hfirst.
    destruct (evaluate msg (Z.abs <$> d) (when_of d)) eqn:He;
      injection Hfirst as <- <-.
    all: rewrite Hsecond by done; unfold bind at 1.
    all: rewrite (resolveMessage_cached CompiledMessage compile G units msg)
      by done.
    all: unfold bind, emit, or_throw, ret, throw; rewrite He; finish_call.
  - injection Hfirst as <- <-. destruct Hres as [Hthis Hagain].
    rewrite Hsecond by done. unfold bind at 1.
    destruct wm as [thism trm]. cbn [this] in *. subst thism.
    destruct (Hagain trm) as [tr' ->]. finish_call.
Qed.

(** X19.  A second [format] call under the same registries, at the same
    clock reading and for the same date ends as the first one did, with
    the same string or the same error, and leaves the instance as the
    first call left it; after a first call that returned, it compiles
    nothing. *)
Theorem format_repeatable (G : Global) (now : Z) (date : date_arg)
    (w : World') :
  let r1 := format' G now date w in
  let r2 := format' G now date r1.2 in
  r2.1 = r1.1 /\
  this r2.2 = this r1.2 /\
  (forall s, r1.1 = Return s ->
     trace r2.2 = trace r1.2 \/
     exists msg n when, trace r2.2 = EvFormat msg n when :: trace r1.2).
Proof.
  intros r1 r2. subst r1 r2.
  destruct (format' G now date w) as [r1 w1] eqn:H. cbn [fst snd].
  destruct (format_again _ _ _ _ _ _ H) as (w2 & -> & Hthis & Htrace).
  done.
Qed.

Lemma format_cache_step (G : Global) (now : Z) (date : date_arg)
    (w : World') :
  _messages (this (format' G now date w).2) = _messages (this w) \/
  exists t msg,
    new_Date Date_parse date = Some t /\
    _messages (this (format' G now date w).2) =
    <[ToString (js_or (_units (this w))
                  (_selectUnits (diff now t) (thresholds G))) := msg]>
      (_messages (this w)).
Proof.
  unfold_methods. run; eauto.
Qed.

Lemma format_keeps_wellformed (G : Global) (now : Z) (date : date_arg)
    (w : World') :
  units_wellformed w -> cache_in_PRIORITY w ->
  units_wellformed (format' G now date w).2 /\
  cache_in_PRIORITY (format' G now date w).2.
Proof.
  intros Hu Hc.
  destruct (format_preserves CompiledMessage compile evaluate diff Date_parse
              G now date w) as (_ & Hunits & _ & _).
  split; [unfold units_wellformed; by rewrite Hunits|].
  intros k. destruct (format_cache_step G now date w) as [-> | (t & m & _ & ->)].
  - apply Hc.
  - destruct (decide (ToString (js_or (_units (this w))
                (_selectUnits (diff now t) (thresholds G))) = k)) as [<-|Hne].
    + intros _. by apply units_in_use_in_PRIORITY.
    + rewrite lookup_insert_ne by done. apply Hc.
Qed.

(** X20.  The message cache of an instance whose pinned unit, if any, is
    a unit of [PRIORITY] has units of [PRIORITY] as its only keys,
    through any run of [format] calls: it never holds more than six
    compiled messages. *)
Theorem cache_stays_in_PRIORITY (calls : list (Global * Z * date_arg))
    (w : World') :
  units_wellformed w -> cache_in_PRIORITY w ->
  cache_in_PRIORITY (format_calls' calls w) /\
  (size (_messages (this (format_calls' calls w))) <= 6)%nat.
Proof.
  intros Hu Hc.
  assert (Hinv : units_wellformed (format_calls' calls w) /\
                 cache_in_PRIORITY (format_calls' calls w)).
  { revert w Hu Hc.
    induction calls as [|[[G now] date] calls IH]; intros w Hu Hc; [done|].
    cbn [format_calls].
    destruct (format_keeps_wellformed G now date w Hu Hc) as [Hu' Hc'].
    by apply IH. }
  destruct Hinv as [_ Hc']. split; [done|].
  rewrite <- size_dom.
  transitivity (size (list_to_set PRIORITY : gset string)).
  - apply subseteq_size. intros k Hk%elem_of_dom.
    apply elem_of_list_to_set. by apply Hc'.
  - rewrite size_list_to_set by apply NoDup_PRIORITY. done.
Qed.

(** X21.  With data for the locale of the instance that has a field
    with a [relativeTime] for each of the six units, and a message engine
    that neither fails to compile nor to evaluate, [format] returns a
    string on every date it accepts, for an instance whose pinned unit, if
    any, is a unit of [PRIORITY]. *)
Theorem format_total_on_complete_locale (G : Global) (now : Z) (date : date_arg) (t : Z)
    (w : World') :
  (forall message loc, is_Some (compile message loc)) ->
  (forall msg n when, is_Some (evaluate msg n when)) ->
  complete_locale G (_locale (this w)) ->
  units_wellformed w ->
  new_Date Date_parse date = Some t -> t <> 0%Z ->
  exists s w', format' G now date w = (Return s, w').
Proof.
  intros Hcompile Hevaluate (data & fs & Hl & Hfs & Hall) Hu Hdate Ht.
  pose proof (units_in_use_in_PRIORITY CompiledMessage w (diff now t)
                (thresholds G) Hu) as Hin.
  destruct (Hall _ Hin) as (field & rt & Hf & Hrt).
  unfold_methods. rewrite Hdate.
  assert (date_rejected (Some t) = false) as ->.
  { simpl. by rewrite negb_false_iff, negb_true_iff, Z.eqb_neq. }
  rewrite Hl, Hfs, Hf.
  set (units := js_or _ _) in *.
  set (ph := match relative field with Some rel => _ | None => _ end).
  assert (exists o, ph w = (Return o, w)) as [o Ho].
  { subst ph. destruct (relative field); by eexists. }
  rewrite Ho. destruct (phrase_truthy o); [by eexists _, _|].
  destruct (_messages (this w) !! ToString units) as [m|].
  - destruct (Hevaluate m (Z.abs <$> diff now t !! ToString units)
                (when_of (diff now t !! ToString units))) as [s ->].
    by eexists _, _.
  - rewrite Hl, Hfs, Hf, Hrt.
    destruct (Hcompile (synthesize rt) (_locale (this w))) as [m ->].
    destruct (Hevaluate m (Z.abs <$> diff now t !! ToString units)
                (when_of (diff now t !! ToString units))) as [s ->].
    by eexists _, _.
Qed.

End MethodsInvariants.

Lemma Sample_world_wellformed :
  units_wellformed (Sample.world JUndefined) /\
  cache_in_PRIORITY (Sample.world JUndefined).
Proof.
  split; [by left|]. intros k [m Hm]. cbn in Hm.
  by rewrite lookup_empty in Hm.
Qed.

Lemma Sample_G_complete : complete_locale Sample.G "en".
Proof.
  exists Sample.en, Sample.en_fields. split; [done|]. split; [done|].
  intros u Hu. unfold PRIORITY in Hu.
  repeat (apply elem_of_cons in Hu as [->|Hu]; [by eexists _, _|]).
  by apply elem_of_nil in Hu.
Qed.

Lemma cache_stays_in_PRIORITY_witness :
  let calls :=
    [(Sample.G, 1000000%Z, DPrim (JNum 970000));
     (Sample.G, 1000000%Z, DPrim (JNum 99000000))] in
  units_wellformed (Sample.world JUndefined) /\
  cache_in_PRIORITY (Sample.world JUndefined) /\
  (size (_messages (this (format_calls Sample.Msg Sample.compile
           Sample.evaluate Sample.diff Sample.Date_parse calls
           (Sample.world JUndefined)))) <= 6)%nat.
Proof.
  intros calls.
  destruct Sample_world_wellformed as [Hu Hc].
  split; [exact Hu|]. split; [exact Hc|].
  exact (proj2 (cache_stays_in_PRIORITY Sample.Msg Sample.compile
                  Sample.evaluate Sample.diff Sample.Date_parse calls
                  (Sample.world JUndefined) Hu Hc)).
Defined.

Lemma format_total_on_complete_locale_witness :
  exists s w',
    Sample.format Sample.G 1000000 (DPrim (JNum 99000000))
      (Sample.world JUndefined) = (Return s, w').
Proof.
  apply (format_total_on_complete_locale Sample.Msg Sample.compile Sample.evaluate
           Sample.diff Sample.Date_parse Sample.G 1000000
           (DPrim (JNum 99000000)) 99000000 (Sample.world JUndefined)).
  - intros message loc. by eexists.
  - intros msg n when. by eexists.
  - exact Sample_G_complete.
  - exact (proj1 Sample_world_wellformed).
  - reflexivity.
  - discriminate.
Defined.

Lemma second_call_example :
  (Sample.format Sample.G 1000000 (DPrim (JNum 970000))
     (Sample.format Sample.G 1000000 (DPrim (JNum 970000))
        (Sample.world JUndefined)).2).1 = Return "past 30".
Proof. reflexivity. Qed.

(** ** Message synthesis *)

Lemma substring_all (s : string) (m : nat) :
  (String.length s <= m)%nat -> String.substring 0 m s = s.
Proof.
  revert m. induction s as [|c s IH]; intros m Hm.
  - by destruct m.
  - destruct m as [|m]; cbn in *; [lia|]. f_equal. apply IH. lia.
Qed.

Lemma replace_no_brace (a : string) :
  Forall (fun c => c <> "{"%char) (list_ascii_of_string a) ->
  Str.replace "{0}" "#" a = a.
Proof.
  induction a as [|c a IH]; [done|].
  intros [Hc Ha]%Forall_cons. cbn [Str.replace String.prefix].
  destruct (ascii_dec "{" c) as [<-|_]; [done|]. by rewrite IH.
Qed.

(** X22.  Of a phrase only the first placeholder is replaced by the
    plural marker: the text before it, which holds no opening brace, and
    the text after it, a second placeholder included, are kept as they
    are; a phrase without an opening brace is kept whole. *)
Theorem replace_first_placeholder (a b : string) :
  Forall (fun c => c <> "{"%char) (list_ascii_of_string a) ->
  Str.replace "{0}" "#" (a ++ "{0}" ++ b) = a ++ "#" ++ b /\
  Str.replace "{0}" "#" a = a.
Proof.
  intros Ha. split; [|by apply replace_no_brace].
  induction a as [|c a IH].
  - change (EmptyString ++ "{0}" ++ b)
      with (String "{" (String "0" (String "}" b))).
    change (EmptyString ++ "#" ++ b) with (String "#" b).
    cbn [Str.replace].
    assert (String.prefix "{0}" (String "{" (String "0" (String "}" b)))
            = true) as ->.
    { apply prefix_correct. cbn. by destruct b. }
    change ("#" ++ ?x) with (String "#" x). f_equal.
    cbn [String.length String.substring]. apply substring_all. lia.
  - apply Forall_cons in Ha as [Hc Ha].
    change (String c a ++ "{0}" ++ b) with (String c (a ++ "{0}" ++ b)).
    cbn [Str.replace String.prefix].
    destruct (ascii_dec "{" c) as [<-|_]; [done|]. by rewrite IH.
Qed.

Lemma replace_first_placeholder_witness :
  Str.replace "{0}" "#" ("in " ++ "{0}" ++ " days, {0}") =
  "in " ++ "#" ++ " days, {0}".
Proof.
  assert (H : Forall (fun c => c <> "{"%char) (list_ascii_of_string "in ")).
  { repeat constructor; discriminate. }
  exact (proj1 (replace_first_placeholder "in " " days, {0}" H)).
Defined.

Lemma append_assoc' (a b c : string) : (a ++ b) ++ c = a ++ b ++ c.
Proof.
  induction a as [|x a IH]; [done|].
  change (String x ((a ++ b) ++ c) = String x (a ++ b ++ c)). by rewrite IH.
Qed.

Lemma append_empty_r (a : string) : a ++ EmptyString = a.
Proof.
  induction a as [|x a IH]; [done|].
  change (String x (a ++ EmptyString) = String x a). by rewrite IH.
Qed.

Lemma join_empty_cons (x : string) (l : list string) :
  Str.join EmptyString (x :: l) = x ++ Str.join EmptyString l.
Proof.
  destruct l; cbn [Str.join]; [by rewrite append_empty_r | reflexivity].
Qed.

Lemma plural_options_join (entries : list (string * string)) (acc : string) :
  plural_options entries acc =
  acc ++ Str.join EmptyString (map plural_option entries).
Proof.
  revert acc. induction entries as [|[i phrase] entries IH]; intros acc.
  - cbn [plural_options map Str.join]. by rewrite append_empty_r.
  - cbn [plural_options map]. rewrite IH, join_empty_cons.
    unfold plural_option. cbn [fst snd].
    by rewrite !append_assoc'.
Qed.

(** X23.  The pattern [_resolveMessage] builds is the fixed frame with,
    in each of its two branches, one option per plural category of the
    data, in the order of the data and with nothing between them: the
    category, then the phrase with its placeholder replaced, in braces. *)
Theorem synthesize_pattern (rt : RelativeTime) :
  synthesize rt =
  "{when, select, future {{0, plural, " ++
  Str.join EmptyString (map plural_option (future rt)) ++
  "}}past {{0, plural, " ++
  Str.join EmptyString (map plural_option (past rt)) ++ "}}}" /\
  (forall entries entries',
     Str.join EmptyString (map plural_option (entries ++ entries')) =
     Str.join EmptyString (map plural_option entries) ++
     Str.join EmptyString (map plural_option entries')).
Proof.
  split.
  - unfold synthesize. rewrite !plural_options_join. reflexivity.
  - intros entries entries'. induction entries as [|e entries IH]; [done|].
    cbn [app map]. by rewrite !join_empty_cons, IH, append_assoc'.
Qed.
